(** * teapot: the evaluation driver ([teapot/main.py])

    A shallow embedding of the command-line driver of teapot-nlp, the
    tool that measures how well an adversarial perturbation of a
    machine-translation input preserves the source meaning and how much
    it degrades the output.

    The driver is effectful glue: it parses the command line, checks
    files, loads custom scorers into a process-wide registry, calls the
    scorer and the statistics helper, and prints a report.  The
    embedding keeps that shape: [get_args] and [main] are written in a
    small monad that threads the scorer registry, records every call the
    driver makes to the outside (argparse, os.path, teapot.scorers,
    teapot.utils, print) in a trace, and stops at the first raised
    exception. *)

From Stdlib Require Import ZArith QArith Qcanon String List DecimalString Lia.
From Stdlib Require Floats.
From stdpp Require Import base option list strings gmap.

Local Open Scope string_scope.
Local Open Scope list_scope.

(** ** Python values *)

(** The arithmetic the driver performs on Python floats.  The driver is
    generic in it: everything it does with a score is add, multiply,
    divide, compare, and convert an [int]. *)
Class PyFloat (F : Type) : Type := {
  fadd : F → F → F;     (* x + y *)
  fmul : F → F → F;     (* x * y *)
  fdiv : F → F → F;     (* x / y, for a divisor that is not zero *)
  fgt : F → F → bool;   (* x > y *)
  of_int : Z → F        (* the float an int is converted to *)
}.

(** [float(b)] for a Python bool. *)
Definition float_of_bool `{PyFloat F} (b : bool) : F :=
  if b then of_int 1 else of_int 0.

(** The builtin [sum]: a left-to-right fold that starts from the int 0. *)
Definition py_sum `{PyFloat F} (xs : list F) : F :=
  fold_left fadd xs (of_int 0).

(** Exceptions.  [ValueError] is what the driver itself raises; the
    other constructors are raised by the interpreter ([ZeroDivisionError],
    [TypeError], [UnboundLocalError]) or by code outside [main.py] ([SystemExit] by argparse,
    [Foreign] for anything a scorer, a custom source file or a helper
    raises). *)
Inductive exn : Type :=
| ValueError (msg : string)
| ZeroDivisionError
| TypeError
| UnboundLocalError
| SystemExit (code : Z)
| Foreign (what : string).

Inductive Res (A : Type) : Type :=
| Ok (a : A)
| Raise (e : exn).
Arguments Ok {A} a.
Arguments Raise {A} e.

(** [str(n)] for a non-negative int. *)
Definition str_of_nat (n : nat) : string :=
  NilEmpty.string_of_uint (Nat.to_uint n).

(** [s * n] for a string [s]. *)
Fixpoint str_repeat (s : string) (n : nat) : string :=
  match n with
  | O => ""
  | S k => s ++ str_repeat s k
  end.

(** The double quote and the tab, which a string literal cannot hold. *)
Definition dq : string := String (Ascii.ascii_of_nat 34) EmptyString.
Definition tab : string := String (Ascii.ascii_of_nat 9) EmptyString.

(** ** The command line *)

(** The [argparse.Namespace] the driver reads: one field per option
    declared in [get_args].  A path or language that was not given is
    [None]. *)
Module Args.
Record t (F : Type) : Type := mk {
  score : string;
  src : option string;
  adv_src : option string;
  ref : option string;
  out : option string;
  adv_out : option string;
  src_lang : option string;
  tgt_lang : option string;
  scale : F;
  terse : bool;
  custom_scores_source : list string
}.
Arguments mk {F}.
Arguments score {F}.
Arguments src {F}.
Arguments adv_src {F}.
Arguments ref {F}.
Arguments out {F}.
Arguments adv_out {F}.
Arguments src_lang {F}.
Arguments tgt_lang {F}.
Arguments scale {F}.
Arguments terse {F}.
Arguments custom_scores_source {F}.
End Args.

(** The default of a declared option: [None], a string, an int, [False]
    (a [store_true] flag) or a list. *)
Inductive Default : Type :=
| DefaultNone
| DefaultStr (s : string)
| DefaultInt (z : Z)
| DefaultFalse
| DefaultList (xs : list string).

(** One [parser.add_argument] call: the option string and its default. *)
Record Argument : Type := {
  flag : string;
  default : Default
}.

(** An [argparse.ArgumentParser], as far as the driver is concerned: the
    options declared on it so far. *)
Definition Parser : Type := list Argument.

(** The parser [get_args] builds before the first parse. *)
Definition base_parser : Parser :=
  [ {| flag := "--score"; default := DefaultStr "chrf" |};
    {| flag := "--src"; default := DefaultNone |};
    {| flag := "--adv-src"; default := DefaultNone |};
    {| flag := "--ref"; default := DefaultNone |};
    {| flag := "--out"; default := DefaultNone |};
    {| flag := "--adv-out"; default := DefaultNone |};
    {| flag := "--src-lang"; default := DefaultNone |};
    {| flag := "--tgt-lang"; default := DefaultNone |};
    {| flag := "--scale"; default := DefaultInt 100 |};
    {| flag := "--terse"; default := DefaultFalse |};
    {| flag := "--custom-scores-source"; default := DefaultList [] |} ].

(** ** Scorers *)

(** A scorer instance: its label and its two scoring methods.  Both
    methods may raise. *)
Module Scorer.
Record t (F : Type) : Type := mk {
  name : string;
  score : list string → list string → option string → Res (list F);
  rd_score :
    list string → list string → list string → option string → Res (list F)
}.
Arguments mk {F}.
Arguments name {F}.
Arguments score {F}.
Arguments rd_score {F}.
End Scorer.

(** A scorer class, as far as [get_args] uses it: the class-level hook
    that declares the scorer's own options on the parser. *)
Record ScorerClass : Type := {
  class_name : string;
  add_args : Parser → Parser
}.

(** The scorer registry of [teapot.scorers]: a process-wide mapping from
    score name to scorer class. *)
Abbreviation Registry := (gmap string ScorerClass).

(** Modelled from the spec: [scorers.register], which [teapot/scorers]
    defines and [main.py] does not.  Section 4.1: adds or overwrites the
    mapping; the last registration for a name wins. *)
Definition register (name : string) (c : ScorerClass) (reg : Registry)
  : Registry := <[name := c]> reg.

(** Modelled from the spec: the lookup of [scorers.get_scorer_class],
    which [teapot/scorers] defines and [main.py] only calls.
    Section 4.1: returns the class registered under the name and fails
    with an unknown-scorer error if the name is absent. *)
Definition lookup_scorer_class (reg : Registry) (name : string)
  : Res ScorerClass :=
  match reg !! name with
  | Some c => Ok c
  | None => Raise (Foreign ("UnknownScorerError: " ++ name))
  end.

(** ** The driver's monad

    A computation reads and updates the scorer registry, appends the
    calls it makes to a trace, and either returns a value or raises.
    After a raise nothing more runs: the registry and the trace are
    those reached at the raise. *)
Record Run (E A : Type) : Type := mkRun {
  result : Res A;
  registry : Registry;
  trace : list E
}.
Arguments mkRun {E A}.
Arguments result {E A}.
Arguments registry {E A}.
Arguments trace {E A}.

Definition M (E A : Type) : Type := Registry → Run E A.

Definition ret {E A} (a : A) : M E A :=
  λ reg, mkRun (Ok a) reg [].

Definition raise {E A} (e : exn) : M E A :=
  λ reg, mkRun (Raise e) reg [].

Definition bind {E A B} (m : M E A) (k : A → M E B) : M E B :=
  λ reg,
    match m reg with
    | mkRun (Ok a) reg1 t1 =>
        match k a reg1 with
        | mkRun r reg2 t2 => mkRun r reg2 (t1 ++ t2)
        end
    | mkRun (Raise e) reg1 t1 => mkRun (Raise e) reg1 t1
    end.

(** An outside call that returns [r] (or raises), recorded as [ev]. *)
Definition call {E A} (ev : E) (r : Res A) : M E A :=
  λ reg, mkRun r reg [ev].

Declare Scope py_scope.
Delimit Scope py_scope with py.
Notation "x <- m ;; k" := (bind m (λ x, k))
  (at level 100, m at next level, right associativity) : py_scope.
Notation "m ;; k" := (bind m (λ _, k))
  (at level 100, right associativity) : py_scope.

(** [for x in xs: body], where the body may raise. *)
Fixpoint for_ {E A} (xs : list A) (body : A → M E unit) : M E unit :=
  match xs with
  | [] => ret tt
  | x :: rest => bind (body x) (λ _, for_ rest body)
  end.

(** ** The driver *)

Section Driver.
Context {F : Type} `{PyFloat F}.

(** *** What the driver prints *)

(** A printed line is the pieces of its f-string: literal text and
    floats formatted with a fixed number of decimals ([{x:.3f}] is
    [Num 3 x]). *)
Inductive Piece : Type :=
| Txt (s : string)
| Num (prec : nat) (x : F).

Definition Line : Type := list Piece.

(** *** What the driver calls *)

(** The calls the driver makes, in the order it makes them, each with
    what came back. *)
Inductive Event : Type :=
| EvParseKnownArgs (p : Parser) (r : Res (Args.t F))
| EvIsFile (path : string) (b : bool)
| EvReadCustomScorersSource (path : string) (r : Res Registry)
| EvGetScorerClass (reg : Registry) (name : string) (r : Res ScorerClass)
| EvAddArgs (c : ScorerClass)
| EvParseArgs (p : Parser) (r : Res (Args.t F))
| EvScorerFromArgs (args : Args.t F)
| EvLoadtxt (path : option string) (r : Res (list string))
| EvScore (r : Res (list F))
| EvRdScore (r : Res (list F))
| EvStats (xs : list F) (r : Res (F * F * F * F))
| EvPrint (l : Line).

(** The outside of [main.py] for one invocation: argparse over the
    process's command line, [os.path] over its file system, and the
    helpers of [teapot.utils] and [teapot.scorers]. *)
Record World : Type := {
  argparse_parse_known_args : Parser → Res (Args.t F);
  argparse_parse_args : Parser → Res (Args.t F);
  os_path_isfile : string → bool;
  os_path_abspath : string → string;
  scorers_read_custom_scorers_source : string → Registry → Res Registry;
  scorers_scorer_from_args : Registry → Args.t F → Res (Scorer.t F);
  utils_loadtxt : option string → Res (list string);
  utils_stats : list F → Res (F * F * F * F)
}.

Variable W : World.

Local Open Scope py_scope.

Definition parse_known_args (parser : Parser) : M Event (Args.t F) :=
  let r := argparse_parse_known_args W parser in
  call (EvParseKnownArgs parser r) r.

Definition parse_args (parser : Parser) : M Event (Args.t F) :=
  let r := argparse_parse_args W parser in
  call (EvParseArgs parser r) r.

Definition isfile (path : string) : M Event bool :=
  let b := os_path_isfile W path in
  call (EvIsFile path b) (Ok b).

(** Loading a custom source runs its top-level registrations: on
    success the registry is the one the file leaves behind. *)
Definition read_custom_scorers_source (path : string) : M Event unit :=
  λ reg,
    let r := scorers_read_custom_scorers_source W path reg in
    match r with
    | Ok reg' => mkRun (Ok tt) reg' [EvReadCustomScorersSource path r]
    | Raise e => mkRun (Raise e) reg [EvReadCustomScorersSource path r]
    end.

Definition get_scorer_class (name : string) : M Event ScorerClass :=
  λ reg,
    let r := lookup_scorer_class reg name in
    mkRun r reg [EvGetScorerClass reg name r].

(** [scorer_class.add_args(parser)]: the parser afterwards. *)
Definition class_add_args (c : ScorerClass) (parser : Parser)
  : M Event Parser :=
  call (EvAddArgs c) (Ok (add_args c parser)).

Definition scorer_from_args (args : Args.t F) : M Event (Scorer.t F) :=
  λ reg,
    mkRun (scorers_scorer_from_args W reg args) reg [EvScorerFromArgs args].

Definition loadtxt (path : option string) : M Event (list string) :=
  let r := utils_loadtxt W path in
  call (EvLoadtxt path r) r.

Definition score (scorer : Scorer.t F) (hyps refs : list string)
    (lang : option string) : M Event (list F) :=
  let r := Scorer.score scorer hyps refs lang in
  call (EvScore r) r.

Definition rd_score (scorer : Scorer.t F) (adv_out orig_out ref : list string)
    (lang : option string) : M Event (list F) :=
  let r := Scorer.rd_score scorer adv_out orig_out ref lang in
  call (EvRdScore r) r.

Definition stats (xs : list F) : M Event (F * F * F * F) :=
  let r := utils_stats W xs in
  call (EvStats xs r) r.

Definition print (l : Line) : M Event unit :=
  call (EvPrint l) (Ok tt).

(** *** [get_args] *)

Definition is_not_None {A} (o : option A) : bool :=
  match o with Some _ => true | None => false end.

(** [source_side] and [target_side] as [get_args] computes them from
    the first parse. *)
Definition source_side (args : Args.t F) : bool :=
  is_not_None (Args.src args) && is_not_None (Args.adv_src args).

Definition target_side (args : Args.t F) : bool :=
  is_not_None (Args.ref args) && is_not_None (Args.out args)
  && is_not_None (Args.adv_out args).

(** [getattr(args, name, None)] on the five path attributes. *)
Definition getattr (args : Args.t F) (name : string) : option string :=
  if String.eqb name "src" then Args.src args
  else if String.eqb name "adv_src" then Args.adv_src args
  else if String.eqb name "ref" then Args.ref args
  else if String.eqb name "out" then Args.out args
  else if String.eqb name "adv_out" then Args.adv_out args
  else None.

Definition no_side_msg : string :=
  "You need to specify at lease `--src` and `--adv-src` "
  ++ "(for source side evaluation) OR `--ref`, `--out` and `--adv-out`"
  ++ " (for target side evaluation)".

Definition missing_file_msg (name filename : string) : string :=
  "Specified file for " ++ dq ++ name ++ dq ++ " (" ++ dq ++ filename ++ dq
  ++ ")" ++ " does not exist".

Definition missing_custom_msg (path : string) : string :=
  "Can't find custom scorer source file " ++ dq ++ path ++ dq.

Definition path_names : list string :=
  ["src"; "adv_src"; "ref"; "out"; "adv_out"].

Definition get_args : M Event (Args.t F * bool * bool) :=
  let parser := base_parser in
  args <- parse_known_args parser ;;
  (* Check arguments *)
  let source_side := source_side args in
  let target_side := target_side args in
  (if negb (source_side || target_side)
   then raise (ValueError no_side_msg)
   else ret tt) ;;
  (* Check file existence *)
  for_ path_names (λ name,
    match getattr args name with
    | Some filename =>
        found <- isfile filename ;;
        if negb found
        then raise (ValueError (missing_file_msg name filename))
        else ret tt
    | None => ret tt
    end) ;;
  (* Load custom scorers source *)
  for_ (Args.custom_scores_source args) (λ source_file,
    let path := os_path_abspath W source_file in
    found <- isfile path ;;
    if negb found
    then raise (ValueError (missing_custom_msg path))
    else read_custom_scorers_source path) ;;
  (* Add scorer specific args *)
  scorer_class <- get_scorer_class (Args.score args) ;;
  (* Parse again with scorer specific args *)
  parser <- class_add_args scorer_class parser ;;
  args <- parse_args parser ;;
  ret (args, source_side, target_side).

(** *** [main] *)

Definition size_mismatch_msg (N M : nat) : string :=
  "The number of samples in the source (" ++ str_of_nat N
  ++ ") doesn't match " ++ "the number of samples in the target ("
  ++ str_of_nat M ++ ")".

(** [[float(s + d > 1) for s, d in zip(s_src, d_tgt)]] *)
Definition success (s_src d_tgt : list F) : list F :=
  map (λ sd, float_of_bool (fgt (fadd (fst sd) (snd sd)) (of_int 1)))
      (combine s_src d_tgt).

(** [sum(success) / N]: true division by the int [N], which raises on
    zero; [N] is [None] until a pipeline has set it. *)
Definition success_fraction (success : list F) (N : option nat)
  : M Event F :=
  match N with
  | None => raise TypeError
  | Some O => raise ZeroDivisionError
  | Some n => ret (fdiv (py_sum success) (of_int (Z.of_nat n)))
  end.

Definition separator : Line := [Txt (str_repeat "-" 80)].

(** A local variable that is bound only on some paths is [None] until
    it is bound; reading it before that raises. *)
Definition local {A} (v : option A) : M Event A :=
  match v with
  | Some a => ret a
  | None => raise UnboundLocalError
  end.

Definition main : M Event unit :=
  (* Command line args *)
  got <- get_args ;;
  let '(args, source_side, target_side) := got in
  let scale := Args.scale args in
  (* Scorer *)
  scorer <- scorer_from_args args ;;
  (* Source side eval *)
  let N : option nat := None in
  src_vars <-
    (if source_side then
       (* Source score (s_src in the paper) *)
       adv_src_lines <- loadtxt (Args.adv_src args) ;;
       src_lines <- loadtxt (Args.src args) ;;
       s_src <- score scorer adv_src_lines src_lines (Args.src_lang args) ;;
       (* statistics *)
       let N := Some (length s_src) in
       st <- stats s_src ;;
       let '(s_src_avg, s_src_std, s_src_5, s_src_95) := st in
       (* Print stats *)
       (if Args.terse args then
          print [Num 3 (fmul s_src_avg scale)]
        else
          print [Txt ("Source side preservation ("
                      ++ Scorer.name scorer ++ "):")] ;;
          print [Txt ("Mean:" ++ tab); Num 3 (fmul s_src_avg scale)] ;;
          print [Txt ("Std:" ++ tab); Num 3 (fmul s_src_std scale)] ;;
          print [Txt ("5%-95%:" ++ tab); Num 3 (fmul s_src_5 scale);
                 Txt "-"; Num 3 (fmul s_src_95 scale)]) ;;
       ret (N, Some s_src)
     else ret (N, None)) ;;
  let '(N, s_src) := src_vars in
  (* Target side eval *)
  tgt_vars <-
    (if target_side then
       (* target relative decrease in score (d_tgt in the paper) *)
       adv_out_lines <- loadtxt (Args.adv_out args) ;;
       out_lines <- loadtxt (Args.out args) ;;
       ref_lines <- loadtxt (Args.ref args) ;;
       d_tgt <- rd_score scorer adv_out_lines out_lines ref_lines
                         (Args.tgt_lang args) ;;
       (* Check size *)
       N <- match N with
            | None => ret (Some (length d_tgt))
            | Some n =>
                if negb (Nat.eqb (length d_tgt) n)
                then raise (ValueError
                              (size_mismatch_msg n (length d_tgt)))
                else ret N
            end ;;
       (* Statistics *)
       st <- stats d_tgt ;;
       let '(d_tgt_avg, d_tgt_std, d_tgt_5, d_tgt_95) := st in
       (* Print stats *)
       (if Args.terse args then
          print [Num 3 (fmul d_tgt_avg scale)]
        else
          (if source_side then print separator else ret tt) ;;
          print [Txt ("Target side degradation "
                      ++ "(relative decrease in "
                      ++ Scorer.name scorer ++ "):")] ;;
          print [Txt ("Mean:" ++ tab); Num 3 (fmul d_tgt_avg scale)] ;;
          print [Txt ("Std:" ++ tab); Num 3 (fmul d_tgt_std scale)] ;;
          print [Txt ("5%-95%:" ++ tab); Num 3 (fmul d_tgt_5 scale);
                 Txt "-"; Num 3 (fmul d_tgt_95 scale)]) ;;
       ret (N, Some d_tgt)
     else ret (N, None)) ;;
  let '(N, d_tgt) := tgt_vars in
  (* Both sided (success) *)
  if target_side && source_side then
    s_src <- local s_src ;;
    d_tgt <- local d_tgt ;;
    let success := success s_src d_tgt in
    success_fraction <- success_fraction success N ;;
    (* Print success *)
    if Args.terse args then
      print [Num 3 (fmul success_fraction (of_int 100))]
    else
      print separator ;;
      print [Txt "Success percentage: ";
             Num 2 (fmul success_fraction (of_int 100)); Txt " %"]
  else ret tt.

(** The lines a trace prints, and what the print statements of [main.py]
    wrote to standard output in a run (argparse, a scorer or a custom
    source may write too: that is not part of the trace). *)
Definition printed (t : list Event) : list Line :=
  omap (λ ev, match ev with EvPrint l => Some l | _ => None end) t.

Definition stdout {A} (r : Run Event A) : list Line := printed (trace r).

End Driver.

Arguments Piece F : clear implicits.
Arguments Line F : clear implicits.
Arguments Event F : clear implicits.
Arguments World F : clear implicits.

(** ** Exact floats

    An instance of the arithmetic for running the driver on the samples
    below: finite values are rationals and their arithmetic is exact (no
    rounding); infinities and NaN follow the IEEE conventions Python
    floats follow.  Finite results are kept in lowest terms, so equal
    values are equal terms.  What depends on rounding is proved on
    [Binary64] instead. *)
Module Exact.

Inductive t : Type :=
| Fin (q : Q)
| PInf
| NInf
| NaN.

Definition fin (q : Q) : t := Fin (Qred q).

Definition neg_inf (negative : bool) : t := if negative then NInf else PInf.

Definition add (x y : t) : t :=
  match x, y with
  | NaN, _ | _, NaN => NaN
  | PInf, NInf | NInf, PInf => NaN
  | PInf, _ | _, PInf => PInf
  | NInf, _ | _, NInf => NInf
  | Fin a, Fin b => fin (a + b)
  end.

(** The sign of a finite value: [Lt], [Eq] or [Gt] against zero. *)
Definition sign (q : Q) : comparison := (q ?= 0)%Q.

Definition mul_inf (negative : bool) (y : t) : t :=
  match y with
  | NaN => NaN
  | PInf => neg_inf negative
  | NInf => neg_inf (negb negative)
  | Fin b =>
      match sign b with
      | Eq => NaN
      | Gt => neg_inf negative
      | Lt => neg_inf (negb negative)
      end
  end.

Definition mul (x y : t) : t :=
  match x, y with
  | NaN, _ | _, NaN => NaN
  | PInf, _ => mul_inf false y
  | NInf, _ => mul_inf true y
  | _, PInf => mul_inf false x
  | _, NInf => mul_inf true x
  | Fin a, Fin b => fin (a * b)
  end.

(** Division by a divisor that is not zero (Python raises before
    dividing by zero). *)
Definition div (x y : t) : t :=
  match x, y with
  | NaN, _ | _, NaN => NaN
  | (PInf | NInf), (PInf | NInf) => NaN
  | Fin _, (PInf | NInf) => Fin 0
  | PInf, Fin b => mul_inf false (Fin b)
  | NInf, Fin b => mul_inf true (Fin b)
  | Fin a, Fin b => fin (a / b)
  end.

Definition gt (x y : t) : bool :=
  match x, y with
  | NaN, _ | _, NaN => false
  | PInf, PInf => false
  | PInf, _ => true
  | _, PInf => false
  | NInf, _ => false
  | Fin _, NInf => true
  | Fin a, Fin b => negb (Qle_bool a b)
  end.

#[global] Instance float : PyFloat t := {
  fadd := add;
  fmul := mul;
  fdiv := div;
  fgt := gt;
  of_int := λ z, Fin (inject_Z z)
}.

Definition eqb (x y : t) : bool :=
  match x, y with
  | Fin a, Fin b => Qeq_bool a b
  | PInf, PInf | NInf, NInf | NaN, NaN => true
  | _, _ => false
  end.

End Exact.

(** ** Doubles

    What CPython's floats are: IEEE 754 binary64 numbers, here Rocq's
    primitive floats, whose operations [SpecFloat] specifies bit for
    bit (round to nearest, ties to even).  An int converts to the
    nearest double; beyond the range of doubles Python raises
    [OverflowError] where [SFint] gives an infinity, and the driver
    converts only 0, 1, 100 and the length of a list. *)
Module Binary64.
Import SpecFloat PrimFloat FloatOps.

(** The float nearest to an integer, as a specification-level value. *)
Definition SFint (k : Z) : spec_float :=
  binary_normalize prec emax k 0 false.

Definition of_Z (z : Z) : float := SF2Prim (SFint z).

#[global] Instance float_ops : PyFloat float := {
  fadd := PrimFloat.add;
  fmul := PrimFloat.mul;
  fdiv := PrimFloat.div;
  fgt := λ x y, PrimFloat.ltb y x;
  of_int := of_Z
}.

End Binary64.

(** ** A sample invocation *)
Module Sample.
Import Exact.

Definition chrf_class : ScorerClass :=
  {| class_name := "ChrF";
     add_args := λ p, p ++ [{| flag := "--chrf-order";
                               default := DefaultInt 6 |}] |}.

Definition registry0 : Registry := {[ "chrf" := chrf_class ]}.

Definition lookup_table {A B} (eqb : A → A → bool) (tbl : list (A * B))
    (a : A) : option B :=
  snd <$> find (λ kv, eqb (fst kv) a) tbl.

Definition q (n d : Z) : t := fin (Qmake n (Z.to_pos d)).

(** All five paths, everything else at its default. *)
Definition args0 : Args.t t :=
  Args.mk "chrf" (Some "src.txt") (Some "adv.txt") (Some "ref.txt")
    (Some "out.txt") (Some "advout.txt") None None (q 100 1) false [].

Definition files : list (string * list string) :=
  [("src.txt", ["the cat sat"; "a dog"]);
   ("adv.txt", ["the cat sit"; "a dig"]);
   ("ref.txt", ["le chat"; "un chien"]);
   ("out.txt", ["le chat"; "un chien"]);
   ("advout.txt", ["le chien"; "un chien"])].

(** A scorer that returns fixed sequences for the two samples. *)
Definition scorer0 : Scorer.t t :=
  Scorer.mk "chrf"
    (λ _ _ _, Ok [q 9 10; q 1 2])
    (λ _ _ _ _, Ok [q 1 2; q 0 1]).

Definition list_eqb (xs ys : list t) : bool :=
  bool_decide (length xs = length ys)
  && forallb (λ xy, eqb (fst xy) (snd xy)) (combine xs ys).

(** Where [os.path.abspath] puts a relative path. *)
Definition cwd : string := "/work/".

(** A custom source file and the class its top level registers. *)
Definition my_class : ScorerClass :=
  {| class_name := "MyScorer";
     add_args := λ p, p ++ [{| flag := "--my-weight";
                               default := DefaultInt 1 |}] |}.

Definition custom_sources : list (string * (Registry → Registry)) :=
  [("/work/my_scorer.py", register "mine" my_class)].

(** The outside for one invocation: the command line parses to [a]
    (both times), the files are [files] and [custom_sources], the
    scorer built from the arguments is [sc], and the statistics helper
    answers for the score sequences of the samples below. *)
Definition world (a : Args.t t) (sc : Scorer.t t) : World t :=
  {| argparse_parse_known_args := λ _, Ok a;
     argparse_parse_args := λ _, Ok a;
     os_path_isfile := λ p,
       is_not_None (lookup_table String.eqb files p)
       || is_not_None (lookup_table String.eqb custom_sources p);
     os_path_abspath := λ p, (cwd ++ p)%string;
     scorers_read_custom_scorers_source := λ p reg,
       match lookup_table String.eqb custom_sources p with
       | Some load => Ok (load reg)
       | None => Raise (Foreign "FileNotFoundError")
       end;
     scorers_scorer_from_args := λ _ _, Ok sc;
     utils_loadtxt := λ p,
       match p with
       | Some p =>
           match lookup_table String.eqb files p with
           | Some ls => Ok ls
           | None => Raise (Foreign "FileNotFoundError")
           end
       | None => Raise TypeError
       end;
     utils_stats :=
       λ xs,
         match lookup_table list_eqb
                 [([q 9 10; q 1 2], (q 7 10, q 1 5, q 13 25, q 22 25));
                  ([q 1 2; q 0 1], (q 1 4, q 1 4, q 1 40, q 19 40));
                  ([q 1 2; q 0 1; q 0 1],
                   (q 1 6, q 2357 10000, q 0 1, q 9 20))] xs with
         | Some st => Ok st
         | None => Raise (Foreign "EmptyInputError")
         end |}.

(** [--src src.txt] and nothing else. *)
Definition args_src_only : Args.t t :=
  Args.mk "chrf" (Some "src.txt") None None None None None None (q 100 1)
    false [].

(** [--src missing.txt] and nothing else. *)
Definition args_missing_src_only : Args.t t :=
  Args.mk "chrf" (Some "missing.txt") None None None None None None
    (q 100 1) false [].

(** [--src missing.txt --adv-src gone.txt]. *)
Definition args_two_missing : Args.t t :=
  Args.mk "chrf" (Some "missing.txt") (Some "gone.txt") None None None
    None None (q 100 1) false [].

(** [--src src.txt --adv-src adv.txt --ref ref.txt]: the source group in
    full, one of the three target paths. *)
Definition args_source_and_ref : Args.t t :=
  Args.mk "chrf" (Some "src.txt") (Some "adv.txt") (Some "ref.txt") None
    None None None (q 100 1) false [].

(** [--src src.txt --adv-src adv.txt --ref nowhere.txt]. *)
Definition args_source_and_missing_ref : Args.t t :=
  Args.mk "chrf" (Some "src.txt") (Some "adv.txt") (Some "nowhere.txt")
    None None None None (q 100 1) false [].

(** All five paths, [--scale 10 --terse]. *)
Definition args_scale10 : Args.t t :=
  Args.mk "chrf" (Some "src.txt") (Some "adv.txt") (Some "ref.txt")
    (Some "out.txt") (Some "advout.txt") None None (q 10 1) true [].

(** All five paths, [--terse]. *)
Definition args_terse : Args.t t :=
  Args.mk "chrf" (Some "src.txt") (Some "adv.txt") (Some "ref.txt")
    (Some "out.txt") (Some "advout.txt") None None (q 100 1) true [].

(** All five paths, [--score mine --custom-scores-source my_scorer.py]. *)
Definition args_custom : Args.t t :=
  Args.mk "mine" (Some "src.txt") (Some "adv.txt") (Some "ref.txt")
    (Some "out.txt") (Some "advout.txt") None None (q 100 1) false
    ["my_scorer.py"].

(** A scorer whose [rd_score] returns three values for two samples. *)
Definition scorer_uneven : Scorer.t t :=
  Scorer.mk "chrf"
    (λ _ _ _, Ok [q 9 10; q 1 2])
    (λ _ _ _ _, Ok [q 1 2; q 0 1; q 0 1]).

End Sample.

(** ** The sample invocation, on doubles *)
Module Sample64.
Import PrimFloat.

(** All five paths, everything else at its default. *)
Definition args0 : Args.t float :=
  Args.mk "chrf" (Some "src.txt") (Some "adv.txt") (Some "ref.txt")
    (Some "out.txt") (Some "advout.txt") None None 100%float false [].

(** What the scorer returns for the two samples, and the statistics of
    the two sequences; all are binary fractions, which a double holds
    exactly. *)
Definition s0 : list float := [0.875; 0.5]%float.
Definition d0 : list float := [0.5; 0]%float.
Definition s0_stats : float * float * float * float :=
  (0.6875, 0.1875, 0.5, 0.875)%float.
Definition d0_stats : float * float * float * float :=
  (0.25, 0.25, 0, 0.5)%float.
Definition half : float := 0.5%float.

Definition scorer0 : Scorer.t float :=
  Scorer.mk "chrf" (λ _ _ _, Ok s0) (λ _ _ _ _, Ok d0).

Definition list_eqb (xs ys : list float) : bool :=
  bool_decide (length xs = length ys)
  && forallb (λ xy, PrimFloat.eqb (fst xy) (snd xy)) (combine xs ys).

(** The outside of [Sample.world] without custom sources, on doubles. *)
Definition world (a : Args.t float) (sc : Scorer.t float) : World float :=
  {| argparse_parse_known_args := λ _, Ok a;
     argparse_parse_args := λ _, Ok a;
     os_path_isfile := λ p,
       is_not_None (Sample.lookup_table String.eqb Sample.files p);
     os_path_abspath := λ p, (Sample.cwd ++ p)%string;
     scorers_read_custom_scorers_source := λ p reg,
       Raise (Foreign "FileNotFoundError");
     scorers_scorer_from_args := λ _ _, Ok sc;
     utils_loadtxt := λ p,
       match p with
       | Some p =>
           match Sample.lookup_table String.eqb Sample.files p with
           | Some ls => Ok ls
           | None => Raise (Foreign "FileNotFoundError")
           end
       | None => Raise TypeError
       end;
     utils_stats :=
       λ xs,
         match Sample.lookup_table list_eqb
                 [(s0, s0_stats); (d0, d0_stats)] xs with
         | Some st => Ok st
         | None => Raise (Foreign "EmptyInputError")
         end |}.

End Sample64.


(** * Properties *)

(** ** How binds run *)

Lemma bind_ok {E A B} (m : M E A) (k : A → M E B) reg a reg1 t1 :
  m reg = mkRun (Ok a) reg1 t1 →
  bind m k reg
  = mkRun (result (k a reg1)) (registry (k a reg1)) (t1 ++ trace (k a reg1)).
Proof. intros Hm. unfold bind. rewrite Hm. by destruct (k a reg1). Qed.

Lemma bind_raise {E A B} (m : M E A) (k : A → M E B) reg e reg1 t1 :
  m reg = mkRun (Raise e) reg1 t1 →
  bind m k reg = mkRun (Raise e) reg1 t1.
Proof. intros Hm. unfold bind. by rewrite Hm. Qed.

Section GetArgs.
Context {F : Type} `{PyFloat F}.
Variable W : World F.

(** The first of the given names, in order, whose path was provided and
    is not a file. *)
Fixpoint first_missing (args : Args.t F) (names : list string)
    : option (string * string) :=
  match names with
  | [] => None
  | name :: rest =>
      match getattr args name with
      | Some filename =>
          if os_path_isfile W filename then first_missing args rest
          else Some (name, filename)
      | None => first_missing args rest
      end
  end.

(** The existence checks the file loop makes: one per provided path, in
    order, up to and including the first that fails. *)
Fixpoint checks (args : Args.t F) (names : list string)
  : list (Event F) :=
  match names with
  | [] => []
  | name :: rest =>
      match getattr args name with
      | Some filename =>
          EvIsFile filename (os_path_isfile W filename)
          :: (if os_path_isfile W filename then checks args rest else [])
      | None => checks args rest
      end
  end.

(** The registry after the listed custom sources have been loaded in
    order, if every load succeeds. *)
Fixpoint load_all (files : list string) (reg : Registry) : Res Registry :=
  match files with
  | [] => Ok reg
  | file :: rest =>
      match scorers_read_custom_scorers_source W (os_path_abspath W file) reg
      with
      | Ok reg' => load_all rest reg'
      | Raise e => Raise e
      end
  end.

(** The custom sources a trace loads, in order. *)
Definition loaded (t : list (Event F)) : list string :=
  omap (λ ev, match ev with
              | EvReadCustomScorersSource path (Ok _) => Some path
              | _ => None
              end) t.

(** Events of the custom-source loop. *)
Definition custom_event (ev : Event F) : Prop :=
  match ev with
  | EvIsFile _ _ | EvReadCustomScorersSource _ _ => True
  | _ => False
  end.

Lemma check_files_run args names reg :
  for_ names (λ name,
    match getattr args name with
    | Some filename =>
        bind (isfile W filename) (λ found,
          if negb found
          then raise (ValueError (missing_file_msg name filename))
          else ret tt)
    | None => ret tt
    end) reg
  = mkRun (match first_missing args names with
           | Some (n, f) => Raise (ValueError (missing_file_msg n f))
           | None => Ok tt
           end) reg (checks args names).
Proof using Type.
  set (body := λ name : string, _).
  induction names as [|name rest IH]; [done|].
  cbn [for_ first_missing checks].
  assert (Hone : body name reg
    = match getattr args name with
      | Some f =>
          if os_path_isfile W f
          then mkRun (Ok tt) reg [EvIsFile f true]
          else mkRun (Raise (ValueError (missing_file_msg name f))) reg
                 [EvIsFile f false]
      | None => mkRun (Ok tt) reg []
      end).
  { unfold body. destruct (getattr args name) as [f|]; [|done].
    unfold bind, isfile, call. by destruct (os_path_isfile W f). }
  destruct (getattr args name) as [f|].
  - destruct (os_path_isfile W f).
    + rewrite (bind_ok _ _ _ _ _ _ Hone), IH. done.
    + rewrite (bind_raise _ _ _ _ _ _ Hone). done.
  - rewrite (bind_ok _ _ _ _ _ _ Hone), IH. done.
Qed.

Lemma load_custom_run files reg :
  let r := for_ files (λ source_file,
             let path := os_path_abspath W source_file in
             bind (isfile W path) (λ found,
               if negb found
               then raise (ValueError (missing_custom_msg path))
               else read_custom_scorers_source W path)) reg in
  Forall custom_event (trace r)
  ∧ (result r = Ok tt →
     load_all files reg = Ok (registry r)
     ∧ loaded (trace r) = map (os_path_abspath W) files).
Proof using Type.
  set (body := λ source_file : string, _).
  revert reg. induction files as [|file rest IH]; intros reg.
  { cbn. split; [constructor|done]. }
  cbn [for_ load_all map].
  set (path := os_path_abspath W file).
  set (rd := scorers_read_custom_scorers_source W path reg).
  assert (Hone : body file reg
    = if os_path_isfile W path
      then match rd with
           | Ok reg' =>
               mkRun (Ok tt) reg'
                 [EvIsFile path true; EvReadCustomScorersSource path rd]
           | Raise e =>
               mkRun (Raise e) reg
                 [EvIsFile path true; EvReadCustomScorersSource path rd]
           end
      else mkRun (Raise (ValueError (missing_custom_msg path))) reg
             [EvIsFile path false]).
  { unfold body. fold path. unfold bind, isfile, call.
    destruct (os_path_isfile W path); [|done]. cbn.
    unfold read_custom_scorers_source. fold rd. by destruct rd. }
  destruct (os_path_isfile W path).
  - destruct rd as [reg'|e] eqn:Hrd.
    + rewrite (bind_ok _ _ _ _ _ _ Hone). cbn [result registry trace].
      destruct (IH reg') as [IH1 IH2]. split.
      * repeat constructor. exact IH1.
      * intros Hok. destruct (IH2 Hok) as [-> Hl]. split; [done|].
        rewrite <- Hl. reflexivity.
    + rewrite (bind_raise _ _ _ _ _ _ Hone). cbn. split; [|done].
      by repeat constructor.
  - rewrite (bind_raise _ _ _ _ _ _ Hone). cbn. split; [|done].
    by repeat constructor.
Qed.

(** Every way a run of [get_args] can go, with the calls it made. *)
Inductive get_args_outcome (reg : Registry)
  : Run (Event F) (Args.t F * bool * bool) → Prop :=
| GA_exit e :
    argparse_parse_known_args W base_parser = Raise e →
    get_args_outcome reg
      (mkRun (Raise e) reg [EvParseKnownArgs base_parser (Raise e)])
| GA_no_side a0 :
    argparse_parse_known_args W base_parser = Ok a0 →
    source_side a0 || target_side a0 = false →
    get_args_outcome reg
      (mkRun (Raise (ValueError no_side_msg)) reg
         [EvParseKnownArgs base_parser (Ok a0)])
| GA_missing_file a0 n f :
    argparse_parse_known_args W base_parser = Ok a0 →
    source_side a0 || target_side a0 = true →
    first_missing a0 path_names = Some (n, f) →
    get_args_outcome reg
      (mkRun (Raise (ValueError (missing_file_msg n f))) reg
         (EvParseKnownArgs base_parser (Ok a0) :: checks a0 path_names))
| GA_custom_failed a0 e reg' tl :
    argparse_parse_known_args W base_parser = Ok a0 →
    source_side a0 || target_side a0 = true →
    first_missing a0 path_names = None →
    Forall custom_event tl →
    get_args_outcome reg
      (mkRun (Raise e) reg'
         (EvParseKnownArgs base_parser (Ok a0)
          :: checks a0 path_names ++ tl))
| GA_unknown_scorer a0 e reg' tl :
    argparse_parse_known_args W base_parser = Ok a0 →
    source_side a0 || target_side a0 = true →
    first_missing a0 path_names = None →
    Forall custom_event tl →
    load_all (Args.custom_scores_source a0) reg = Ok reg' →
    loaded tl = map (os_path_abspath W) (Args.custom_scores_source a0) →
    lookup_scorer_class reg' (Args.score a0) = Raise e →
    get_args_outcome reg
      (mkRun (Raise e) reg'
         (EvParseKnownArgs base_parser (Ok a0)
          :: checks a0 path_names ++ tl
          ++ [EvGetScorerClass reg' (Args.score a0) (Raise e)]))
| GA_parsed a0 c r reg' tl :
    argparse_parse_known_args W base_parser = Ok a0 →
    source_side a0 || target_side a0 = true →
    first_missing a0 path_names = None →
    Forall custom_event tl →
    load_all (Args.custom_scores_source a0) reg = Ok reg' →
    loaded tl = map (os_path_abspath W) (Args.custom_scores_source a0) →
    lookup_scorer_class reg' (Args.score a0) = Ok c →
    argparse_parse_args W (add_args c base_parser) = r →
    get_args_outcome reg
      (mkRun (match r with
              | Ok args => Ok (args, source_side a0, target_side a0)
              | Raise e => Raise e
              end) reg'
         (EvParseKnownArgs base_parser (Ok a0)
          :: checks a0 path_names ++ tl
          ++ [EvGetScorerClass reg' (Args.score a0) (Ok c);
              EvAddArgs c;
              EvParseArgs (add_args c base_parser) r])).

Lemma get_args_outcomes reg : get_args_outcome reg (get_args W reg).
Proof using Type.
  unfold get_args.
  destruct (argparse_parse_known_args W base_parser) as [a0|e] eqn:Hpk.
  2:{ erewrite bind_raise; [by apply GA_exit|].
      unfold parse_known_args, call. by rewrite Hpk. }
  erewrite bind_ok; [|unfold parse_known_args, call; by rewrite Hpk].
  cbv beta zeta.
  destruct (source_side a0 || target_side a0) eqn:Hside; cbn [negb].
  2:{ erewrite bind_raise; [|reflexivity]. cbn. by apply GA_no_side. }
  erewrite bind_ok; [|reflexivity]. cbv beta.
  destruct (first_missing a0 path_names) as [[n f]|] eqn:Hfm.
  { erewrite bind_raise; [|rewrite check_files_run, Hfm; reflexivity].
    cbn. by apply GA_missing_file. }
  erewrite bind_ok; [|rewrite check_files_run, Hfm; reflexivity].
  cbv beta.
  match goal with |- context [bind (for_ ?fs ?b) _ ?rg] =>
    destruct (load_custom_run fs rg) as [Hev Hok];
    destruct (for_ fs b rg) as [[[]|e] reg' tl] eqn:Hloop
  end; cbn [result registry trace] in *.
  2:{ erewrite bind_raise; [|exact Hloop]. cbn.
      by apply GA_custom_failed. }
  destruct (Hok eq_refl) as [Hload Hloaded].
  erewrite bind_ok; [|exact Hloop]. cbv beta.
  destruct (lookup_scorer_class reg' (Args.score a0)) as [c|e] eqn:Hc.
  2:{ erewrite bind_raise;
        [|unfold get_scorer_class; rewrite Hc; reflexivity].
      cbn. by apply GA_unknown_scorer. }
  erewrite bind_ok; [|unfold get_scorer_class; rewrite Hc; reflexivity].
  cbv beta.
  erewrite bind_ok; [|reflexivity]. cbv beta.
  pose proof (GA_parsed reg a0 c _ reg' tl Hpk Hside Hfm Hev Hload Hloaded
                Hc eq_refl) as Hout.
  destruct (argparse_parse_args W (add_args c base_parser)) as [args|e]
    eqn:Hpa.
  - erewrite bind_ok; [|unfold parse_args, call; rewrite Hpa; reflexivity].
    cbn. exact Hout.
  - erewrite bind_raise;
      [|unfold parse_args, call; rewrite Hpa; reflexivity].
    cbn. exact Hout.
Qed.

End GetArgs.

Section Main.
Context {F : Type} `{PyFloat F}.
Variable W : World F.

(** What [main] does once [get_args] has returned. *)
Definition main_body : Args.t F * bool * bool → M (Event F) unit :=
  ltac:(let t := eval cbv beta delta [main] in (main W) in
        lazymatch t with bind _ ?k => exact k end).

Lemma main_unfold : main W = bind (get_args W) main_body.
Proof using Type. reflexivity. Qed.

(** *** The three blocks of [main], as the reports they print *)

Section Blocks.
Variables (args : Args.t F) (source_side target_side : bool).
Variable scorer : Scorer.t F.

Definition source_report (st : F * F * F * F) : list (Line F) :=
  let '(avg, std, p5, p95) := st in
  let scale := Args.scale args in
  if Args.terse args then [[Num 3 (fmul avg scale)]]
  else [[Txt ("Source side preservation (" ++ Scorer.name scorer ++ "):")];
        [Txt ("Mean:" ++ tab); Num 3 (fmul avg scale)];
        [Txt ("Std:" ++ tab); Num 3 (fmul std scale)];
        [Txt ("5%-95%:" ++ tab); Num 3 (fmul p5 scale);
         Txt "-"; Num 3 (fmul p95 scale)]].

Definition target_report (st : F * F * F * F) : list (Line F) :=
  let '(avg, std, p5, p95) := st in
  let scale := Args.scale args in
  if Args.terse args then [[Num 3 (fmul avg scale)]]
  else (if source_side then [separator] else [])
       ++ [[Txt ("Target side degradation " ++ "(relative decrease in "
                 ++ Scorer.name scorer ++ "):")];
           [Txt ("Mean:" ++ tab); Num 3 (fmul avg scale)];
           [Txt ("Std:" ++ tab); Num 3 (fmul std scale)];
           [Txt ("5%-95%:" ++ tab); Num 3 (fmul p5 scale);
            Txt "-"; Num 3 (fmul p95 scale)]].

Definition success_report (fraction : F) : list (Line F) :=
  if Args.terse args then [[Num 3 (fmul fraction (of_int 100))]]
  else [separator;
        [Txt "Success percentage: ";
         Num 2 (fmul fraction (of_int 100)); Txt " %"]].

(** The success fraction of two score sequences over [n] samples. *)
Definition fraction_of (s_src d_tgt : list F) (n : nat) : F :=
  fdiv (py_sum (success s_src d_tgt)) (of_int (Z.of_nat n)).

(** Source side eval: the value of [s_src] afterwards ([None] when the
    block is skipped) and the calls made. *)
Inductive source_eval : Res (option (list F)) → list (Event F) → Prop :=
| SE_skip :
    source_side = false → source_eval (Ok None) []
| SE_adv_src_failed e :
    source_side = true →
    utils_loadtxt W (Args.adv_src args) = Raise e →
    source_eval (Raise e) [EvLoadtxt (Args.adv_src args) (Raise e)]
| SE_src_failed adv e :
    source_side = true →
    utils_loadtxt W (Args.adv_src args) = Ok adv →
    utils_loadtxt W (Args.src args) = Raise e →
    source_eval (Raise e)
      [EvLoadtxt (Args.adv_src args) (Ok adv);
       EvLoadtxt (Args.src args) (Raise e)]
| SE_score_failed adv orig e :
    source_side = true →
    utils_loadtxt W (Args.adv_src args) = Ok adv →
    utils_loadtxt W (Args.src args) = Ok orig →
    Scorer.score scorer adv orig (Args.src_lang args) = Raise e →
    source_eval (Raise e)
      [EvLoadtxt (Args.adv_src args) (Ok adv);
       EvLoadtxt (Args.src args) (Ok orig);
       EvScore (Raise e)]
| SE_stats_failed adv orig s e :
    source_side = true →
    utils_loadtxt W (Args.adv_src args) = Ok adv →
    utils_loadtxt W (Args.src args) = Ok orig →
    Scorer.score scorer adv orig (Args.src_lang args) = Ok s →
    utils_stats W s = Raise e →
    source_eval (Raise e)
      [EvLoadtxt (Args.adv_src args) (Ok adv);
       EvLoadtxt (Args.src args) (Ok orig);
       EvScore (Ok s);
       EvStats s (Raise e)]
| SE_done adv orig s st :
    source_side = true →
    utils_loadtxt W (Args.adv_src args) = Ok adv →
    utils_loadtxt W (Args.src args) = Ok orig →
    Scorer.score scorer adv orig (Args.src_lang args) = Ok s →
    utils_stats W s = Ok st →
    source_eval (Ok (Some s))
      ([EvLoadtxt (Args.adv_src args) (Ok adv);
        EvLoadtxt (Args.src args) (Ok orig);
        EvScore (Ok s);
        EvStats s (Ok st)] ++ map EvPrint (source_report st)).

(** The size check: passes when the source side did not run or counted
    as many samples. *)
Definition sizes_agree (s_src : option (list F)) (d_tgt : list F) : bool :=
  match s_src with
  | None => true
  | Some s => Nat.eqb (length d_tgt) (length s)
  end.

(** Target side eval, given [s_src] from the source side: the value of
    [d_tgt] afterwards and the calls made. *)
Inductive target_eval (s_src : option (list F))
  : Res (option (list F)) → list (Event F) → Prop :=
| TE_skip :
    target_side = false → target_eval s_src (Ok None) []
| TE_adv_out_failed e :
    target_side = true →
    utils_loadtxt W (Args.adv_out args) = Raise e →
    target_eval s_src (Raise e) [EvLoadtxt (Args.adv_out args) (Raise e)]
| TE_out_failed adv e :
    target_side = true →
    utils_loadtxt W (Args.adv_out args) = Ok adv →
    utils_loadtxt W (Args.out args) = Raise e →
    target_eval s_src (Raise e)
      [EvLoadtxt (Args.adv_out args) (Ok adv);
       EvLoadtxt (Args.out args) (Raise e)]
| TE_ref_failed adv orig e :
    target_side = true →
    utils_loadtxt W (Args.adv_out args) = Ok adv →
    utils_loadtxt W (Args.out args) = Ok orig →
    utils_loadtxt W (Args.ref args) = Raise e →
    target_eval s_src (Raise e)
      [EvLoadtxt (Args.adv_out args) (Ok adv);
       EvLoadtxt (Args.out args) (Ok orig);
       EvLoadtxt (Args.ref args) (Raise e)]
| TE_rd_score_failed adv orig rf e :
    target_side = true →
    utils_loadtxt W (Args.adv_out args) = Ok adv →
    utils_loadtxt W (Args.out args) = Ok orig →
    utils_loadtxt W (Args.ref args) = Ok rf →
    Scorer.rd_score scorer adv orig rf (Args.tgt_lang args) = Raise e →
    target_eval s_src (Raise e)
      [EvLoadtxt (Args.adv_out args) (Ok adv);
       EvLoadtxt (Args.out args) (Ok orig);
       EvLoadtxt (Args.ref args) (Ok rf);
       EvRdScore (Raise e)]
| TE_size_mismatch adv orig rf d s :
    target_side = true →
    utils_loadtxt W (Args.adv_out args) = Ok adv →
    utils_loadtxt W (Args.out args) = Ok orig →
    utils_loadtxt W (Args.ref args) = Ok rf →
    Scorer.rd_score scorer adv orig rf (Args.tgt_lang args) = Ok d →
    s_src = Some s →
    Nat.eqb (length d) (length s) = false →
    target_eval s_src
      (Raise (ValueError (size_mismatch_msg (length s) (length d))))
      [EvLoadtxt (Args.adv_out args) (Ok adv);
       EvLoadtxt (Args.out args) (Ok orig);
       EvLoadtxt (Args.ref args) (Ok rf);
       EvRdScore (Ok d)]
| TE_stats_failed adv orig rf d e :
    target_side = true →
    utils_loadtxt W (Args.adv_out args) = Ok adv →
    utils_loadtxt W (Args.out args) = Ok orig →
    utils_loadtxt W (Args.ref args) = Ok rf →
    Scorer.rd_score scorer adv orig rf (Args.tgt_lang args) = Ok d →
    sizes_agree s_src d = true →
    utils_stats W d = Raise e →
    target_eval s_src (Raise e)
      [EvLoadtxt (Args.adv_out args) (Ok adv);
       EvLoadtxt (Args.out args) (Ok orig);
       EvLoadtxt (Args.ref args) (Ok rf);
       EvRdScore (Ok d);
       EvStats d (Raise e)]
| TE_done adv orig rf d st :
    target_side = true →
    utils_loadtxt W (Args.adv_out args) = Ok adv →
    utils_loadtxt W (Args.out args) = Ok orig →
    utils_loadtxt W (Args.ref args) = Ok rf →
    Scorer.rd_score scorer adv orig rf (Args.tgt_lang args) = Ok d →
    sizes_agree s_src d = true →
    utils_stats W d = Ok st →
    target_eval s_src (Ok (Some d))
      ([EvLoadtxt (Args.adv_out args) (Ok adv);
        EvLoadtxt (Args.out args) (Ok orig);
        EvLoadtxt (Args.ref args) (Ok rf);
        EvRdScore (Ok d);
        EvStats d (Ok st)] ++ map EvPrint (target_report st)).

(** Both sided (success), given [s_src] and [d_tgt]. *)
Inductive success_eval (s_src d_tgt : option (list F))
  : Res unit → list (Event F) → Prop :=
| SU_skip :
    target_side && source_side = false →
    success_eval s_src d_tgt (Ok tt) []
| SU_no_samples s d :
    target_side && source_side = true →
    s_src = Some s → d_tgt = Some d →
    length s = 0 →
    success_eval s_src d_tgt (Raise ZeroDivisionError) []
| SU_done s d :
    target_side && source_side = true →
    s_src = Some s → d_tgt = Some d →
    length s ≠ 0 →
    success_eval s_src d_tgt (Ok tt)
      (map EvPrint (success_report (fraction_of s d (length s)))).

End Blocks.

(** Every way a run of [main] can go once [get_args] has returned. *)
Inductive body_outcome (args : Args.t F) (source_side target_side : bool)
    (reg : Registry) : Run (Event F) unit → Prop :=
| BO_scorer_failed e :
    scorers_scorer_from_args W reg args = Raise e →
    body_outcome args source_side target_side reg
      (mkRun (Raise e) reg [EvScorerFromArgs args])
| BO_source_failed scorer e t1 :
    scorers_scorer_from_args W reg args = Ok scorer →
    source_eval args source_side scorer (Raise e) t1 →
    body_outcome args source_side target_side reg
      (mkRun (Raise e) reg (EvScorerFromArgs args :: t1))
| BO_target_failed scorer s_src t1 e t2 :
    scorers_scorer_from_args W reg args = Ok scorer →
    source_eval args source_side scorer (Ok s_src) t1 →
    target_eval args source_side target_side scorer s_src (Raise e) t2 →
    body_outcome args source_side target_side reg
      (mkRun (Raise e) reg (EvScorerFromArgs args :: t1 ++ t2))
| BO_finished scorer s_src t1 d_tgt t2 r t3 :
    scorers_scorer_from_args W reg args = Ok scorer →
    source_eval args source_side scorer (Ok s_src) t1 →
    target_eval args source_side target_side scorer s_src (Ok d_tgt) t2 →
    success_eval args source_side target_side s_src d_tgt r t3 →
    body_outcome args source_side target_side reg
      (mkRun r reg (EvScorerFromArgs args :: t1 ++ t2 ++ t3)).

Lemma body_outcome_intro args ss ts reg scorer s_src d_tgt r t1 t2 t3 t :
  scorers_scorer_from_args W reg args = Ok scorer →
  source_eval args ss scorer (Ok s_src) t1 →
  target_eval args ss ts scorer s_src (Ok d_tgt) t2 →
  success_eval args ss ts s_src d_tgt r t3 →
  t = EvScorerFromArgs args :: t1 ++ t2 ++ t3 →
  body_outcome args ss ts reg (mkRun r reg t).
Proof using Type. intros ???? ->. by eapply BO_finished. Qed.

Lemma body_outcome_target_failed args ss ts reg scorer s_src e t1 t2 t :
  scorers_scorer_from_args W reg args = Ok scorer →
  source_eval args ss scorer (Ok s_src) t1 →
  target_eval args ss ts scorer s_src (Raise e) t2 →
  t = EvScorerFromArgs args :: t1 ++ t2 →
  body_outcome args ss ts reg (mkRun (Raise e) reg t).
Proof using Type. intros ??? ->. by eapply BO_target_failed. Qed.

Ltac tidy_run :=
  repeat match goal with
  | Hn : negb _ = true |- _ => apply negb_true_iff in Hn
  | Hn : negb _ = false |- _ => apply negb_false_iff in Hn
  end;
  try match goal with
  | Hl : length ?l = S ?n |- _ =>
      assert (length l ≠ 0) by (rewrite Hl; discriminate);
      rewrite <- Hl in *
  | Hl : length ?l = 0, Hn : (_ =? 0)%nat = _ |- _ =>
      rewrite <- Hl in Hn
  end.

Ltac block :=
  econstructor; first [eassumption | reflexivity | cbn; eassumption].

Ltac same_trace :=
  unfold source_report, target_report, success_report, fraction_of;
  repeat match goal with
  | Ht : Args.terse _ = _ |- _ => rewrite Ht
  end;
  reflexivity.

Lemma main_body_outcomes args ss ts reg :
  body_outcome args ss ts reg (main_body (args, ss, ts) reg).
Proof using Type.
  unfold main_body.
  unfold bind, scorer_from_args, loadtxt, score, rd_score, stats, print,
    success_fraction, local, call, ret, raise.
  cbn.
  repeat (case_match; simplify_eq/=).
  all: tidy_run.
  all: try solve [
    by eapply BO_scorer_failed
    | eapply BO_source_failed; [eassumption|block]
    | eapply body_outcome_target_failed; [eassumption|block|block|same_trace]
    | eapply body_outcome_intro;
        [eassumption|block|block|block|same_trace] ].
Qed.

(** A run of [main] is a run of [get_args] followed, if it returned, by
    the rest. *)
Lemma main_run reg :
  let g := get_args W reg in
  match result g with
  | Raise e => main W reg = mkRun (Raise e) (registry g) (trace g)
  | Ok (args, ss, ts) =>
      ∃ b, body_outcome args ss ts (registry g) b
           ∧ main W reg = mkRun (result b) (registry b) (trace g ++ trace b)
  end.
Proof using Type.
  rewrite main_unfold. cbn zeta.
  destruct (get_args W reg) as [[[[args ss] ts]|e] reg' t] eqn:Hg; cbn.
  - exists (main_body (args, ss, ts) reg'). split.
    + apply main_body_outcomes.
    + by rewrite (bind_ok _ _ _ _ _ _ Hg).
  - by rewrite (bind_raise _ _ _ _ _ _ Hg).
Qed.

Lemma main_get_args_raise reg e :
  result (get_args W reg) = Raise e →
  main W reg
  = mkRun (Raise e) (registry (get_args W reg)) (trace (get_args W reg)).
Proof using Type.
  intros Hr. pose proof (main_run reg) as Hm. cbn zeta in Hm.
  by rewrite Hr in Hm.
Qed.

End Main.

(** ** The command line checks *)

Ltac same_parse :=
  repeat match goal with
  | H1 : ?f = Ok ?a, H2 : ?f = Ok ?b |- _ =>
      assert (b = a) by congruence; subst b; clear H2
  end.

Section CommandLine.
Context {F : Type} `{PyFloat F}.
Variable W : World F.

(** Calls that look at the file system. *)
Definition touches_files (ev : Event F) : bool :=
  match ev with
  | EvIsFile _ _ | EvReadCustomScorersSource _ _ | EvLoadtxt _ _ => true
  | _ => false
  end.

(** Calls that score or aggregate. *)
Definition scoring_work (ev : Event F) : bool :=
  match ev with
  | EvScorerFromArgs _ | EvScore _ | EvRdScore _ | EvStats _ _ => true
  | _ => false
  end.

Lemma checks_are_isfile args names ev :
  In ev (checks W args names) → ∃ f b, ev = EvIsFile f b.
Proof using Type.
  induction names as [|name rest IH]; cbn; [done|].
  destruct (getattr args name) as [f|]; [|done].
  intros [<-|Hin]; [by eauto|].
  destruct (os_path_isfile W f); [by apply IH|done].
Qed.

Lemma first_missing_spec args names n f :
  first_missing W args names = Some (n, f) →
  getattr args n = Some f ∧ os_path_isfile W f = false
  ∧ In (EvIsFile f false) (checks W args names)
  ∧ ∃ before after,
      names = before ++ n :: after
      ∧ ∀ n' f', In n' before → getattr args n' = Some f' →
                 os_path_isfile W f' = true.
Proof using Type.
  induction names as [|name rest IH]; cbn; [done|].
  destruct (getattr args name) as [g|] eqn:Hg.
  - destruct (os_path_isfile W g) eqn:Hfile.
    + intros Hfm. destruct (IH Hfm) as (? & ? & ? & before & after & -> & Hb).
      repeat split; [done|done|by right|].
      exists (name :: before), after. split; [done|].
      intros n' f' [<-|Hin] Hn'; [congruence|by eapply Hb].
    + intros [= <- <-]. repeat split; [done|done|by left|].
      exists [], rest. by split.
  - intros Hfm. destruct (IH Hfm) as (? & ? & ? & before & after & -> & Hb).
    repeat split; [done..|].
    exists (name :: before), after. split; [done|].
    intros n' f' [<-|Hin] Hn'; [congruence|by eapply Hb].
Qed.

Lemma first_missing_exists args names name filename :
  In name names → getattr args name = Some filename →
  os_path_isfile W filename = false →
  ∃ n f, first_missing W args names = Some (n, f).
Proof using Type.
  induction names as [|name' rest IH]; cbn; [done|].
  intros [->|Hin] Hg Hfile.
  - rewrite Hg, Hfile. eauto.
  - destruct (getattr args name') as [g|]; [|by eapply IH].
    destruct (os_path_isfile W g); [by eapply IH|eauto].
Qed.

Lemma get_args_no_side reg a0 :
  argparse_parse_known_args W base_parser = Ok a0 →
  source_side a0 || target_side a0 = false →
  get_args W reg
  = mkRun (Raise (ValueError no_side_msg)) reg
      [EvParseKnownArgs base_parser (Ok a0)].
Proof using Type.
  intros Hpk Hside.
  destruct (get_args_outcomes W reg); simplify_eq; congruence.
Qed.

Lemma get_args_missing_file reg a0 n f :
  argparse_parse_known_args W base_parser = Ok a0 →
  source_side a0 || target_side a0 = true →
  first_missing W a0 path_names = Some (n, f) →
  get_args W reg
  = mkRun (Raise (ValueError (missing_file_msg n f))) reg
      (EvParseKnownArgs base_parser (Ok a0) :: checks W a0 path_names).
Proof using Type.
  intros Hpk Hside Hfm.
  destruct (get_args_outcomes W reg); simplify_eq; congruence.
Qed.

Lemma sides_false (a0 : Args.t F) :
  Args.src a0 = None ∨ Args.adv_src a0 = None →
  Args.ref a0 = None ∨ Args.out a0 = None ∨ Args.adv_out a0 = None →
  source_side a0 || target_side a0 = false.
Proof using Type.
  unfold source_side, target_side.
  intros [->| ->] [->|[->| ->]]; cbn;
    repeat (rewrite ?andb_false_r, ?andb_false_l; cbn); done.
Qed.

(** C3. When neither the source side (src and adv-src) nor the target
    side (ref, out and adv-out) is fully given, the program fails with
    the configuration error, and the only call it has made by then is
    the first parse of the command line: no file-existence check, no
    file read. *)
Theorem no_side_is_configuration_error reg a0 :
  argparse_parse_known_args W base_parser = Ok a0 →
  Args.src a0 = None ∨ Args.adv_src a0 = None →
  Args.ref a0 = None ∨ Args.out a0 = None ∨ Args.adv_out a0 = None →
  result (main W reg) = Raise (ValueError no_side_msg)
  ∧ trace (main W reg) = [EvParseKnownArgs base_parser (Ok a0)]
  ∧ Forall (λ ev, touches_files ev = false) (trace (main W reg)).
Proof using Type.
  intros Hpk Hsrc Htgt.
  pose proof (get_args_no_side reg a0 Hpk (sides_false a0 Hsrc Htgt)) as Hg.
  rewrite (main_get_args_raise W reg (ValueError no_side_msg));
    rewrite Hg; cbn; [|done].
  repeat split. by repeat constructor.
Qed.

Lemma checks_start args names name filename :
  In name names → getattr args name = Some filename →
  ∃ f rest,
    checks W args names = EvIsFile f (os_path_isfile W f) :: rest.
Proof using Type.
  induction names as [|name' rest IH]; cbn; [done|].
  intros Hin Hg. destruct (getattr args name') as [g|] eqn:Hg'; [by eauto|].
  destruct Hin as [->|Hin]; [congruence|by eapply IH].
Qed.

Lemma main_trace_prefix reg :
  ∃ rest, trace (main W reg) = trace (get_args W reg) ++ rest.
Proof using Type.
  pose proof (main_run W reg) as Hm. cbn zeta in Hm.
  destruct (result (get_args W reg)) as [[[args ss] ts]|e].
  - destruct Hm as (b & _ & ->). by eexists.
  - rewrite Hm. exists []. cbn. by rewrite app_nil_r.
Qed.

Lemma get_args_trace_checks reg a0 :
  argparse_parse_known_args W base_parser = Ok a0 →
  source_side a0 || target_side a0 = true →
  ∃ rest,
    trace (get_args W reg)
    = EvParseKnownArgs base_parser (Ok a0) :: checks W a0 path_names ++ rest.
Proof using Type.
  intros Hpk Hside.
  destruct (get_args_outcomes W reg); cbn [trace]; try congruence;
    same_parse.
  - exists []. by rewrite app_nil_r.
  - by eexists.
  - by eexists.
  - by eexists.
Qed.

Lemma sides_true (a0 : Args.t F) :
  (Args.src a0 ≠ None ∧ Args.adv_src a0 ≠ None)
  ∨ (Args.ref a0 ≠ None ∧ Args.out a0 ≠ None ∧ Args.adv_out a0 ≠ None) →
  source_side a0 || target_side a0 = true
  ∧ ∃ name f, In name path_names ∧ getattr a0 name = Some f.
Proof using Type.
  unfold source_side, target_side, path_names.
  intros [[Hs Ha]|(Hr & Ho & Ha)].
  - destruct (Args.src a0) as [f|] eqn:Hsrc; [|done].
    destruct (Args.adv_src a0); [|done]. split; [done|].
    exists "src", f. split; [by left|]. unfold getattr. by cbn.
  - destruct (Args.ref a0) as [f|] eqn:Href; [|done].
    destruct (Args.out a0); [|done]. destruct (Args.adv_out a0); [|done].
    split; [by rewrite orb_true_r|].
    exists "ref", f. split; [cbn; tauto|]. unfold getattr. by cbn.
Qed.

(** C5, as the code has it.  The command line passes the check on the
    path groups exactly when at least one group is given in full: with
    neither the source group (src, adv-src) nor the target group (ref,
    out, adv-out) complete the program fails with the configuration
    error; with one of them complete it goes on to the file-existence
    checks, whatever part of the other group was given. *)
Theorem one_full_group_is_required reg a0 :
  argparse_parse_known_args W base_parser = Ok a0 →
  ((Args.src a0 = None ∨ Args.adv_src a0 = None)
   ∧ (Args.ref a0 = None ∨ Args.out a0 = None ∨ Args.adv_out a0 = None) →
   result (main W reg) = Raise (ValueError no_side_msg))
  ∧ ((Args.src a0 ≠ None ∧ Args.adv_src a0 ≠ None)
     ∨ (Args.ref a0 ≠ None ∧ Args.out a0 ≠ None ∧ Args.adv_out a0 ≠ None) →
     ∃ f rest,
       trace (main W reg)
       = EvParseKnownArgs base_parser (Ok a0)
         :: EvIsFile f (os_path_isfile W f) :: rest).
Proof using Type.
  intros Hpk. split.
  - intros [Hsrc Htgt].
    pose proof (get_args_no_side reg a0 Hpk (sides_false a0 Hsrc Htgt)) as Hg.
    rewrite (main_get_args_raise W reg (ValueError no_side_msg));
      by rewrite Hg.
  - intros Hfull. destruct (sides_true a0 Hfull) as (Hside & name & f & Hin & Hg).
    destruct (main_trace_prefix reg) as [rest1 ->].
    destruct (get_args_trace_checks reg a0 Hpk Hside) as [rest2 ->].
    destruct (checks_start a0 path_names name f Hin Hg) as (f' & rest3 & ->).
    cbn. by eexists _, _.
Qed.

(** C6, as the code has it.  When at least one group is given in full
    and some provided path among src, adv_src, ref, out, adv_out is not
    an existing file, the program fails with the error that names the
    first such argument, in that order, and its path; by then it has
    built no scorer, called no scorer and computed no statistics. *)
Theorem first_missing_file_is_reported reg a0 name filename :
  argparse_parse_known_args W base_parser = Ok a0 →
  source_side a0 || target_side a0 = true →
  In name path_names →
  getattr a0 name = Some filename →
  os_path_isfile W filename = false →
  ∃ n f before after,
    path_names = before ++ n :: after
    ∧ getattr a0 n = Some f
    ∧ os_path_isfile W f = false
    ∧ (∀ n' f', In n' before → getattr a0 n' = Some f' →
                os_path_isfile W f' = true)
    ∧ result (main W reg) = Raise (ValueError (missing_file_msg n f))
    ∧ Forall (λ ev, scoring_work ev = false) (trace (main W reg)).
Proof using Type.
  intros Hpk Hside Hin Hg Hfile.
  destruct (first_missing_exists a0 path_names name filename Hin Hg Hfile)
    as (n & f & Hfm).
  destruct (first_missing_spec a0 path_names n f Hfm)
    as (Hn & Hf & _ & before & after & Hsplit & Hbefore).
  exists n, f, before, after.
  pose proof (get_args_missing_file reg a0 n f Hpk Hside Hfm) as Hrun.
  rewrite (main_get_args_raise W reg (ValueError (missing_file_msg n f)));
    rewrite Hrun; cbn [result registry trace]; [|done].
  repeat split; try done.
  constructor; [done|]. apply List.Forall_forall. intros ev Hev.
  by destruct (checks_are_isfile a0 path_names ev Hev) as (? & ? & ->).
Qed.

(** C9. The file-existence check looks at every provided path among
    src, adv_src, ref, out, adv_out, whether or not the side it belongs
    to is complete: an invocation with such a path that is not an
    existing file always fails, without reading any file and without
    scoring; and when a group is complete (so that the check is
    reached) the failure is the missing-file error of a provided path
    that was checked and found missing. *)
Theorem file_check_ignores_sides reg a0 name filename :
  argparse_parse_known_args W base_parser = Ok a0 →
  In name path_names →
  getattr a0 name = Some filename →
  os_path_isfile W filename = false →
  (∃ msg, result (main W reg) = Raise (ValueError msg))
  ∧ Forall (λ ev, (∀ p r, ev ≠ EvLoadtxt p r) ∧ scoring_work ev = false)
      (trace (main W reg))
  ∧ (source_side a0 || target_side a0 = true →
     ∃ n f,
       getattr a0 n = Some f
       ∧ In (EvIsFile f false) (trace (main W reg))
       ∧ result (main W reg) = Raise (ValueError (missing_file_msg n f))).
Proof using Type.
  intros Hpk Hin Hg Hfile.
  destruct (source_side a0 || target_side a0) eqn:Hside.
  - destruct (first_missing_exists a0 path_names name filename Hin Hg Hfile)
      as (n & f & Hfm).
    destruct (first_missing_spec a0 path_names n f Hfm)
      as (Hn & Hf & Hev & _).
    pose proof (get_args_missing_file reg a0 n f Hpk Hside Hfm) as Hrun.
    rewrite (main_get_args_raise W reg (ValueError (missing_file_msg n f)));
      rewrite Hrun; cbn [result registry trace]; [|done].
    split; [by eexists|]. split.
    + constructor; [done|]. apply List.Forall_forall. intros ev Hin'.
      by destruct (checks_are_isfile a0 path_names ev Hin') as (? & ? & ->).
    + intros _. exists n, f. repeat split; [done|by right].
  - pose proof (get_args_no_side reg a0 Hpk Hside) as Hrun.
    rewrite (main_get_args_raise W reg (ValueError no_side_msg));
      rewrite Hrun; cbn; [|done].
    split; [by eexists|]. split; [|done]. by repeat constructor.
Qed.

(** Calls [get_args] makes. *)
Definition setup_event (ev : Event F) : bool :=
  match ev with
  | EvParseKnownArgs _ _ | EvIsFile _ _ | EvReadCustomScorersSource _ _
  | EvGetScorerClass _ _ _ | EvAddArgs _ | EvParseArgs _ _ => true
  | _ => false
  end.

Lemma custom_event_setup tl :
  Forall custom_event tl → Forall (λ ev, setup_event ev = true) tl.
Proof using Type.
  intros Hf. eapply Forall_impl; [exact Hf|]. by intros [].
Qed.

Lemma checks_setup args names :
  Forall (λ ev, setup_event ev = true) (checks W args names).
Proof using Type.
  apply List.Forall_forall. intros ev Hev.
  by destruct (checks_are_isfile args names ev Hev) as (? & ? & ->).
Qed.

Lemma get_args_setup reg :
  Forall (λ ev, setup_event ev = true) (trace (get_args W reg)).
Proof using Type.
  destruct (get_args_outcomes W reg); cbn [trace];
    repeat first
      [ apply Forall_cons; split; [done|]
      | apply Forall_app; split
      | apply checks_setup
      | by apply custom_event_setup
      | apply Forall_nil ]; done.
Qed.

Lemma prints_not_setup (ls : list (Line F)) :
  Forall (λ ev, setup_event ev = false) (map EvPrint ls).
Proof using Type. apply Forall_map. by apply Forall_true. Qed.

Lemma body_not_setup args ss ts reg b :
  body_outcome W args ss ts reg b →
  Forall (λ ev, setup_event ev = false) (trace b).
Proof using Type.
  intros Hb. destruct Hb;
    repeat match goal with
    | Hs : source_eval _ _ _ _ _ _ |- _ => destruct Hs
    | Ht : target_eval _ _ _ _ _ _ _ _ |- _ => destruct Ht
    | Hu : success_eval _ _ _ _ _ _ _ |- _ => destruct Hu
    end; cbn [trace];
    repeat first
      [ apply Forall_cons; split; [done|]
      | apply Forall_app; split
      | apply prints_not_setup
      | apply Forall_nil ]; done.
Qed.

(** Every way a run of [main] can go: [get_args] raises, or it returns
    the arguments of the final parse and the rest runs. *)
Lemma main_cases reg :
  (∃ e, main W reg
        = mkRun (Raise e) (registry (get_args W reg))
            (trace (get_args W reg)))
  ∨ (∃ a0 c args reg' tl b,
       argparse_parse_known_args W base_parser = Ok a0
       ∧ source_side a0 || target_side a0 = true
       ∧ first_missing W a0 path_names = None
       ∧ Forall custom_event tl
       ∧ load_all W (Args.custom_scores_source a0) reg = Ok reg'
       ∧ loaded tl = map (os_path_abspath W) (Args.custom_scores_source a0)
       ∧ lookup_scorer_class reg' (Args.score a0) = Ok c
       ∧ argparse_parse_args W (add_args c base_parser) = Ok args
       ∧ body_outcome W args (source_side a0) (target_side a0) reg' b
       ∧ trace (get_args W reg)
         = EvParseKnownArgs base_parser (Ok a0)
           :: checks W a0 path_names ++ tl
           ++ [EvGetScorerClass reg' (Args.score a0) (Ok c);
               EvAddArgs c;
               EvParseArgs (add_args c base_parser) (Ok args)]
       ∧ main W reg
         = mkRun (result b) (registry b) (trace (get_args W reg) ++ trace b)).
Proof using Type.
  pose proof (main_run W reg) as Hm. cbn zeta in Hm.
  destruct (get_args_outcomes W reg) as [| | | | |a0 c r reg' tl];
    cbn [result registry trace] in *; try (left; by eexists).
  destruct r as [args|e]; [|left; by eexists].
  destruct Hm as (b & Hb & Hm). right.
  exists a0, c, args, reg', tl, b. by repeat split.
Qed.

Lemma loaded_app (t1 t2 : list (Event F)) :
  loaded (t1 ++ t2) = loaded t1 ++ loaded t2.
Proof using Type. apply omap_app. Qed.

Lemma loaded_not_setup (t : list (Event F)) :
  Forall (λ ev, setup_event ev = false) t → loaded t = [].
Proof using Type.
  induction 1 as [|ev t Hev _ IH]; [done|].
  unfold loaded in *. cbn. rewrite IH. by destruct ev.
Qed.

Lemma loaded_checks args names : loaded (checks W args names) = [].
Proof using Type.
  induction names as [|name rest IH]; cbn; [done|].
  destruct (getattr args name) as [f|]; [|done].
  destruct (os_path_isfile W f); [exact IH|done].
Qed.

End CommandLine.

(** Membership in a trace, piece by piece. *)
Ltac in_trace Hin :=
  repeat match type of Hin with
  | In _ (_ ++ _) => apply in_app_or in Hin; destruct Hin as [Hin|Hin]
  | In _ (_ :: _) => destruct Hin as [Hin|Hin]
  | In _ [] => destruct Hin
  | In _ (checks _ _ _) =>
      apply checks_are_isfile in Hin; destruct Hin as (? & ? & Hin)
  | In ?ev ?tl =>
      match goal with
      | Hc : Forall custom_event tl |- _ =>
          let Hev := fresh "Hev" in
          pose proof (proj1 (List.Forall_forall _ _) Hc _ Hin) as Hev;
          clear Hin; rename Hev into Hin
      end
  | In _ (map EvPrint _) =>
      apply in_map_iff in Hin; destruct Hin as (? & Hin & ?)
  end.

Section FinalParse.
Context {F : Type} `{PyFloat F}.
Variable W : World F.

(** C7. Whenever the final parse of the command line takes place, it is
    the last of three consecutive calls: the scorer class named by
    [--score] is looked up, its [add_args] extends the parser, and the
    extended parser parses.  Every file listed in
    [--custom-scores-source] has been loaded before the lookup, in the
    order listed, and the lookup is made in the registry those loads
    leave behind: a class that a custom source registers is found, and
    its own option declarations are on the parser of the final
    parse. *)
Theorem custom_sources_load_before_final_parse reg p r :
  In (EvParseArgs p r) (trace (main W reg)) →
  ∃ a0 reg' c before after,
    argparse_parse_known_args W base_parser = Ok a0
    ∧ trace (main W reg)
      = before
        ++ [EvGetScorerClass reg' (Args.score a0) (Ok c);
            EvAddArgs c;
            EvParseArgs p r]
        ++ after
    ∧ loaded before = map (os_path_abspath W) (Args.custom_scores_source a0)
    ∧ loaded after = []
    ∧ load_all W (Args.custom_scores_source a0) reg = Ok reg'
    ∧ lookup_scorer_class reg' (Args.score a0) = Ok c
    ∧ p = add_args c base_parser
    ∧ r = argparse_parse_args W p.
Proof using Type.
  intros Hin.
  assert (Hg : In (EvParseArgs p r) (trace (get_args W reg))
               ∧ ∃ after, trace (main W reg) = trace (get_args W reg) ++ after
                          ∧ loaded after = []).
  { destruct (main_cases W reg) as [[e He]|Hrun].
    - rewrite He in Hin |- *. cbn [trace] in *. split; [done|].
      exists []. by rewrite app_nil_r.
    - destruct Hrun as (a0 & c & args & reg' & tl & b & _ & _ & _ & _ & _
                        & _ & _ & _ & Hb & _ & Hm).
      rewrite Hm in Hin |- *. cbn [trace] in *.
      pose proof (body_not_setup W _ _ _ _ _ Hb) as Hns.
      apply in_app_or in Hin. destruct Hin as [Hin|Hin].
      + split; [done|]. exists (trace b). split; [done|].
        by apply loaded_not_setup.
      + by pose proof (proj1 (List.Forall_forall _ _) Hns _ Hin). }
  destruct Hg as (Hg & after & -> & Hafter). clear Hin.
  destruct (get_args_outcomes W reg) as [| | | | |a0 c r0 reg' tl];
    cbn [trace] in *; in_trace Hg; try discriminate Hg; try done.
  injection Hg as <- <-.
  exists a0, reg', c,
    (EvParseKnownArgs base_parser (Ok a0) :: checks W a0 path_names ++ tl),
    after.
  repeat split; try done.
  - cbn [app]. by rewrite <- !app_assoc.
  - change (loaded (EvParseKnownArgs base_parser (Ok a0)
                     :: checks W a0 path_names ++ tl))
      with (loaded (checks W a0 path_names ++ tl)).
    by rewrite loaded_app, loaded_checks.
Qed.

End FinalParse.

(** The event is in the trace of a concrete run: find it. *)
Ltac occurs := vm_compute; repeat (first [left; reflexivity | right]).

Lemma no_side_is_configuration_error_witness :
  result (main (Sample.world Sample.args_src_only Sample.scorer0)
            Sample.registry0)
  = Raise (ValueError no_side_msg).
Proof.
  apply (no_side_is_configuration_error
           (Sample.world Sample.args_src_only Sample.scorer0)
           Sample.registry0 Sample.args_src_only).
  - reflexivity.
  - right. reflexivity.
  - left. reflexivity.
Defined.

Lemma partial_target_group_is_accepted :
  let a := Sample.args_source_and_ref in
  (Args.ref a = Some "ref.txt" ∧ Args.out a = None ∧ Args.adv_out a = None)
  ∧ result (main (Sample.world a Sample.scorer0) Sample.registry0) = Ok tt.
Proof. vm_compute. done. Qed.

Lemma one_full_group_is_required_witness :
  ∃ f rest,
    trace (main (Sample.world Sample.args_source_and_ref Sample.scorer0)
             Sample.registry0)
    = EvParseKnownArgs base_parser (Ok Sample.args_source_and_ref)
      :: EvIsFile f
           (os_path_isfile
              (Sample.world Sample.args_source_and_ref Sample.scorer0) f)
      :: rest.
Proof.
  apply (one_full_group_is_required
           (Sample.world Sample.args_source_and_ref Sample.scorer0)
           Sample.registry0 Sample.args_source_and_ref eq_refl).
  left. split; discriminate.
Defined.

Lemma missing_file_is_not_always_named :
  let w a := Sample.world a Sample.scorer0 in
  (Args.src Sample.args_missing_src_only = Some "missing.txt"
   ∧ os_path_isfile (w Sample.args_missing_src_only) "missing.txt" = false
   ∧ result (main (w Sample.args_missing_src_only) Sample.registry0)
     = Raise (ValueError no_side_msg))
  ∧ (Args.adv_src Sample.args_two_missing = Some "gone.txt"
     ∧ os_path_isfile (w Sample.args_two_missing) "gone.txt" = false
     ∧ result (main (w Sample.args_two_missing) Sample.registry0)
       = Raise (ValueError (missing_file_msg "src" "missing.txt"))).
Proof. vm_compute. done. Qed.

Lemma first_missing_file_is_reported_witness :
  ∃ n f,
    result (main (Sample.world Sample.args_two_missing Sample.scorer0)
              Sample.registry0)
    = Raise (ValueError (missing_file_msg n f)).
Proof.
  destruct (first_missing_file_is_reported
              (Sample.world Sample.args_two_missing Sample.scorer0)
              Sample.registry0 Sample.args_two_missing
              "adv_src" "gone.txt")
    as (n & f & before & after & _ & _ & _ & _ & Hres & _).
  - reflexivity.
  - reflexivity.
  - right. left. reflexivity.
  - reflexivity.
  - reflexivity.
  - by exists n, f.
Defined.

Lemma file_check_ignores_sides_witness :
  let a := Sample.args_source_and_missing_ref in
  target_side a = false
  ∧ ∃ msg,
      result (main (Sample.world a Sample.scorer0) Sample.registry0)
      = Raise (ValueError msg).
Proof.
  split; [reflexivity|].
  apply (file_check_ignores_sides
           (Sample.world Sample.args_source_and_missing_ref Sample.scorer0)
           Sample.registry0 Sample.args_source_and_missing_ref
           "ref" "nowhere.txt").
  - reflexivity.
  - right. right. left. reflexivity.
  - reflexivity.
  - reflexivity.
Defined.

Lemma custom_sources_load_before_final_parse_witness :
  let w := Sample.world Sample.args_custom Sample.scorer0 in
  lookup_scorer_class Sample.registry0 "mine"
  = Raise (Foreign "UnknownScorerError: mine")
  ∧ ∃ reg' before after,
      trace (main w Sample.registry0)
      = before
        ++ [EvGetScorerClass reg' "mine" (Ok Sample.my_class);
            EvAddArgs Sample.my_class;
            EvParseArgs (add_args Sample.my_class base_parser)
              (Ok Sample.args_custom)]
        ++ after
      ∧ loaded before = ["/work/my_scorer.py"].
Proof.
  split; [reflexivity|].
  destruct (custom_sources_load_before_final_parse
              (Sample.world Sample.args_custom Sample.scorer0)
              Sample.registry0 (add_args Sample.my_class base_parser)
              (Ok Sample.args_custom))
    as (a0 & reg' & c & before & after & Hpk & Htr & Hl & _ & Hload & Hc
        & _ & _).
  - occurs.
  - injection Hpk as <-.
    injection Hload as <-.
    injection Hc as <-.
    exists (register "mine" Sample.my_class Sample.registry0), before, after.
    split; [exact Htr|exact Hl].
Defined.

(** ** The report *)

(** Take the three blocks of a run apart. *)
Ltac invert_blocks :=
  repeat match goal with
  | Hs : source_eval _ _ _ _ _ _ |- _ => inversion Hs; subst; clear Hs
  | Ht : target_eval _ _ _ _ _ _ _ _ |- _ => inversion Ht; subst; clear Ht
  | Hu : success_eval _ _ _ _ _ _ _ |- _ => inversion Hu; subst; clear Hu
  end.

(** Find an event in a trace that is written out. *)
Ltac find_in :=
  match goal with
  | |- In _ (_ :: _) => first [left; reflexivity | right; find_in]
  | |- In _ (_ ++ _) => apply in_or_app; first [left; find_in | right; find_in]
  end.

Section Report.
Context {F : Type} `{PyFloat F}.
Variable W : World F.

(** A scorer call in the trace of [main] is a call of the rest of
    [main], after [get_args] has returned. *)
Lemma main_after_get_args reg ev :
  In ev (trace (main W reg)) → setup_event ev = false →
  ∃ a0 c args reg' b,
    argparse_parse_known_args W base_parser = Ok a0
    ∧ argparse_parse_args W (add_args c base_parser) = Ok args
    ∧ In (EvParseArgs (add_args c base_parser) (Ok args))
        (trace (get_args W reg))
    ∧ body_outcome W args (source_side a0) (target_side a0) reg' b
    ∧ main W reg
      = mkRun (result b) (registry b) (trace (get_args W reg) ++ trace b).
Proof using Type.
  intros Hin Hev.
  destruct (main_cases W reg) as [[e He]|Hrun].
  - rewrite He in Hin. cbn [trace] in Hin.
    pose proof (proj1 (List.Forall_forall _ _) (get_args_setup W reg) _ Hin).
    congruence.
  - destruct Hrun as (a0 & c & args & reg' & tl & b & Hpk & _ & _ & _ & _
                      & _ & _ & Hpa & Hb & Hg & Hm).
    exists a0, c, args, reg', b. repeat split; try done.
    rewrite Hg. right. apply in_or_app. right. apply in_or_app. right.
    cbn. tauto.
Qed.

Lemma in_main_body reg b ev :
  main W reg
  = mkRun (result b) (registry b) (trace (get_args W reg) ++ trace b) →
  In ev (trace (main W reg)) → setup_event ev = false →
  In ev (trace b).
Proof using Type.
  intros -> Hin Hev. cbn [trace] in Hin.
  apply in_app_or in Hin. destruct Hin as [Hin|Hin]; [|done].
  pose proof (proj1 (List.Forall_forall _ _) (get_args_setup W reg) _ Hin).
  congruence.
Qed.

(** C2. When the scorer's [score] call returned a sequence of length N
    and its [rd_score] call returned a sequence of a different length
    M, the program fails with the error that names both counts, and the
    [rd_score] call is the last thing it did: the statistics helper has
    only been called on the source scores, and nothing was printed
    after the source-side report. *)
Theorem sample_count_mismatch reg s d :
  In (EvScore (Ok s)) (trace (main W reg)) →
  In (EvRdScore (Ok d)) (trace (main W reg)) →
  length s ≠ length d →
  result (main W reg)
  = Raise (ValueError (size_mismatch_msg (length s) (length d)))
  ∧ (∃ pre mid post,
       size_mismatch_msg (length s) (length d)
       = (pre ++ str_of_nat (length s) ++ mid
          ++ str_of_nat (length d) ++ post)%string)
  ∧ (∃ before, trace (main W reg) = before ++ [EvRdScore (Ok d)])
  ∧ (∀ xs r, In (EvStats xs r) (trace (main W reg)) → xs = s).
Proof using Type.
  intros Hs Hd Hlen.
  destruct (main_after_get_args reg _ Hs eq_refl)
    as (a0 & c & args & reg' & b & Hpk & Hpa & _ & Hb & Hm).
  pose proof (in_main_body reg b _ Hm Hs eq_refl) as Hs'.
  pose proof (in_main_body reg b _ Hm Hd eq_refl) as Hd'.
  assert (Hst : ∀ xs r, In (EvStats xs r) (trace (main W reg)) →
                        In (EvStats xs r) (trace b)).
  { intros xs r Hin. by apply (in_main_body reg b _ Hm Hin). }
  rewrite Hm. cbn [result trace]. clear Hs Hd.
  assert (result b
          = Raise (ValueError (size_mismatch_msg (length s) (length d)))
          ∧ (∃ before, trace b = before ++ [EvRdScore (Ok d)])
          ∧ (∀ xs r, In (EvStats xs r) (trace b) → xs = s)) as (Hr & Hl & Hx).
  { clear Hst Hm.
    destruct Hb; invert_blocks; cbn [result trace] in *;
      in_trace Hs'; try discriminate Hs'; injection Hs' as <-;
      in_trace Hd'; try discriminate Hd'; injection Hd' as <-;
      try match goal with
      | Hsz : sizes_agree _ _ = true |- _ =>
          cbn in Hsz; apply Nat.eqb_eq in Hsz; congruence
      end.
    simplify_eq. split; [done|]. split.
    - eexists. rewrite app_comm_cons.
      change [?a; ?b; ?c; ?d] with ([a; b; c] ++ [d]).
      rewrite app_assoc. reflexivity.
    - intros xs r Hin. in_trace Hin; try discriminate Hin.
      by injection Hin. }
  repeat split; try done.
  - exists "The number of samples in the source (",
      ") doesn't match the number of samples in the target (", ")".
    reflexivity.
  - destruct Hl as [before ->]. exists (trace (get_args W reg) ++ before).
    by rewrite app_assoc.
  - intros xs r Hin. eapply Hx, Hst. rewrite Hm. exact Hin.
Qed.

Lemma stats_event reg xs r :
  In (EvStats xs r) (trace (main W reg)) → utils_stats W xs = r.
Proof using Type.
  intros Hin.
  destruct (main_after_get_args reg _ Hin eq_refl)
    as (a0 & c & args & reg' & b & Hpk & Hpa & _ & Hb & Hm).
  pose proof (in_main_body reg b _ Hm Hin eq_refl) as Hin'.
  clear Hm Hin.
  destruct Hb; invert_blocks; cbn [result trace] in *;
    in_trace Hin'; try discriminate Hin'; by injection Hin' as <- <-.
Qed.

(** Both pipelines ran to the end on as many samples, and there is at
    least one: the run succeeds and ends with the success report. *)
Lemma both_sides_run reg s d st :
  In (EvScore (Ok s)) (trace (main W reg)) →
  In (EvRdScore (Ok d)) (trace (main W reg)) →
  In (EvStats d (Ok st)) (trace (main W reg)) →
  length s = length d →
  length s ≠ 0 →
  result (main W reg) = Ok tt
  ∧ ∃ p args before,
      In (EvParseArgs p (Ok args)) (trace (main W reg))
      ∧ trace (main W reg)
        = before
          ++ map EvPrint (success_report args (fraction_of s d (length s))).
Proof using Type.
  intros Hs Hd Hst Hlen Hpos.
  apply stats_event in Hst.
  destruct (main_cases W reg) as [[e He]|Hrun].
  { rewrite He in Hs. cbn [trace] in Hs.
    pose proof (proj1 (List.Forall_forall _ _) (get_args_setup W reg) _ Hs).
    done. }
  destruct Hrun as (a0 & c & args & reg' & tl & b & Hpk & _ & _ & _ & _
                    & _ & _ & Hpa & Hb & Hg & Hm).
  pose proof (in_main_body reg b _ Hm Hs eq_refl) as Hs'.
  pose proof (in_main_body reg b _ Hm Hd eq_refl) as Hd'.
  rewrite Hm. cbn [result trace]. clear Hs Hd Hm.
  assert (Hargs : In (EvParseArgs (add_args c base_parser) (Ok args))
                    (trace (get_args W reg))).
  { rewrite Hg. right. apply in_or_app. right. apply in_or_app. right.
    cbn. tauto. }
  clear Hg.
  destruct Hb; invert_blocks; cbn [result trace] in *;
    in_trace Hs'; try discriminate Hs'; injection Hs' as <-;
    in_trace Hd'; try discriminate Hd'; injection Hd' as <-;
    simplify_eq;
    try match goal with
    | Hsz : (_ =? _)%nat = false |- _ => apply Nat.eqb_neq in Hsz; congruence
    | Hsk : target_side ?a && source_side ?a = false,
      Hss : source_side ?a = true, Hts : target_side ?a = true |- _ =>
        rewrite Hss, Hts in Hsk; discriminate Hsk
    end;
    try congruence.
  split; [done|].
  eexists _, args, _. split; [apply in_or_app; left; exact Hargs|].
  rewrite app_comm_cons, !app_assoc. reflexivity.
Qed.

(** *** The success vector, sample by sample *)

(** The spec's success value of sample [i]: 1.0 if the source score
    plus the target degradation exceeds 1, else 0.0. *)
Definition sample_success (s_src d_tgt : list F) (i : nat) : F :=
  if fgt (fadd (nth i s_src (of_int 0)) (nth i d_tgt (of_int 0))) (of_int 1)
  then of_int 1
  else of_int 0.

(** The spec's sum of the success values of samples [0..n-1], added in
    order. *)
Fixpoint success_total (s_src d_tgt : list F) (n : nat) : F :=
  match n with
  | O => of_int 0
  | S k => fadd (success_total s_src d_tgt k) (sample_success s_src d_tgt k)
  end.

Lemma success_length (s d : list F) :
  length s = length d → length (success s d) = length s.
Proof using Type.
  intros Hlen. unfold success.
  rewrite length_map, length_combine. lia.
Qed.

Lemma success_nth (s d : list F) (i : nat) :
  (i < length s)%nat → (i < length d)%nat →
  nth i (success s d) (of_int 0) = sample_success s d i.
Proof using Type.
  revert d i. induction s as [|x s IH]; intros [|y d] i Hs Hd;
    cbn in *; try lia.
  destruct i as [|i]; [done|].
  apply IH; lia.
Qed.

Lemma sum_prefix (l : list F) (n : nat) :
  (n ≤ length l)%nat →
  fold_left fadd (firstn n l) (of_int 0)
  = (fix total k :=
       match k with
       | O => of_int 0
       | S j => fadd (total j) (nth j l (of_int 0))
       end) n.
Proof using Type.
  induction n as [|n IH]; intros Hn; [done|].
  assert (Hsnoc : firstn (S n) l = firstn n l ++ [nth n l (of_int 0)]).
  { clear IH. revert l Hn. induction n as [|n IH]; intros [|x l] Hn;
      cbn in *; try lia; [done|].
    f_equal. apply IH. lia. }
  rewrite Hsnoc, fold_left_app. cbn. rewrite IH by lia. done.
Qed.

Lemma sum_success (s d : list F) :
  length s = length d →
  py_sum (success s d) = success_total s d (length s).
Proof using Type.
  intros Hlen. unfold py_sum.
  rewrite <- (firstn_all (success s d)), (success_length s d Hlen).
  rewrite sum_prefix by (rewrite success_length; done).
  assert (Hn : (length s ≤ length s)%nat) by done. revert Hn.
  generalize (length s) at 1 3 4 as n.
  induction n as [|n IH]; intros Hn; [done|].
  cbn. rewrite IH by lia. f_equal. apply success_nth; lia.
Qed.

(** C1. When both pipelines ran to the end on equally many samples
    (N >= 1), the success vector has one value per sample, the value of
    sample i being 1.0 if s_src[i] + d_tgt[i] > 1 and 0.0 otherwise;
    the success fraction is the sum of these values divided by N; the
    run succeeds and the last thing it prints is the success report,
    which shows that fraction as a percentage (times 100). *)
Theorem success_fraction_is_per_sample reg s d st :
  In (EvScore (Ok s)) (trace (main W reg)) →
  In (EvRdScore (Ok d)) (trace (main W reg)) →
  In (EvStats d (Ok st)) (trace (main W reg)) →
  length s = length d →
  (1 ≤ length s)%nat →
  let N := length s in
  let fraction := fdiv (success_total s d N) (of_int (Z.of_nat N)) in
  length (success s d) = N
  ∧ (∀ i, (i < N)%nat →
          nth i (success s d) (of_int 0) = sample_success s d i)
  ∧ success_fraction (success s d) (Some N) = ret fraction
  ∧ result (main W reg) = Ok tt
  ∧ ∃ p args before,
      In (EvParseArgs p (Ok args)) (trace (main W reg))
      ∧ trace (main W reg)
        = before ++ map EvPrint (success_report args fraction).
Proof using Type.
  intros Hs Hd Hst Hlen Hpos. cbv zeta.
  assert (Hfr : fraction_of s d (length s)
                = fdiv (success_total s d (length s))
                    (of_int (Z.of_nat (length s)))).
  { unfold fraction_of. by rewrite sum_success. }
  split; [by apply success_length|].
  split; [intros i Hi; apply success_nth; lia|].
  split.
  { rewrite <- Hfr. unfold success_fraction, fraction_of.
    destruct (length s); [lia|done]. }
  rewrite <- Hfr.
  apply (both_sides_run reg s d st); try done. lia.
Qed.

(** The numbers a report line shows. *)
Definition shown (l : Line F) : list F :=
  omap (λ piece, match piece with Num _ x => Some x | Txt _ => None end) l.

(** C4, as the code has it.  Every number the program prints is either
    one of the four statistics of the source scores or of the target
    scores multiplied by the value of [--scale] (declared with default
    100), or the success fraction multiplied by 100, whatever
    [--scale] is. *)
Theorem printed_statistics_are_scaled reg l x :
  In (EvPrint l) (trace (main W reg)) →
  In x (shown l) →
  In {| flag := "--scale"; default := DefaultInt 100 |} base_parser
  ∧ ∃ p args,
    In (EvParseArgs p (Ok args)) (trace (main W reg))
    ∧ ((∃ xs avg std p5 p95,
          (In (EvScore (Ok xs)) (trace (main W reg))
           ∨ In (EvRdScore (Ok xs)) (trace (main W reg)))
          ∧ In (EvStats xs (Ok (avg, std, p5, p95))) (trace (main W reg))
          ∧ In x [fmul avg (Args.scale args); fmul std (Args.scale args);
                  fmul p5 (Args.scale args); fmul p95 (Args.scale args)])
       ∨ (∃ s d,
            In (EvScore (Ok s)) (trace (main W reg))
            ∧ In (EvRdScore (Ok d)) (trace (main W reg))
            ∧ x = fmul (fdiv (py_sum (success s d))
                          (of_int (Z.of_nat (length s))))
                    (of_int 100))).
Proof using Type.
  intros Hl Hx. split; [unfold base_parser; find_in|].
  destruct (main_after_get_args reg _ Hl eq_refl)
    as (a0 & c & args & reg' & b & Hpk & Hpa & Hargs & Hb & Hm).
  pose proof (in_main_body reg b _ Hm Hl eq_refl) as Hl'.
  rewrite Hm. cbn [trace]. clear Hl Hm.
  exists (add_args c base_parser), args.
  split; [apply in_or_app; by left|].
  assert ((∃ xs avg std p5 p95,
             (In (EvScore (Ok xs)) (trace b)
              ∨ In (EvRdScore (Ok xs)) (trace b))
             ∧ In (EvStats xs (Ok (avg, std, p5, p95))) (trace b)
             ∧ In x [fmul avg (Args.scale args); fmul std (Args.scale args);
                     fmul p5 (Args.scale args); fmul p95 (Args.scale args)])
          ∨ (∃ s d,
               In (EvScore (Ok s)) (trace b)
               ∧ In (EvRdScore (Ok d)) (trace b)
               ∧ x = fmul (fraction_of s d (length s)) (of_int 100)))
    as [Hstat|Hsucc].
  { clear Hargs Hpk Hpa.
    destruct Hb; invert_blocks; cbn [result trace] in *;
      in_trace Hl'; try discriminate Hl'; injection Hl' as ->;
      repeat match goal with
      | st : (F * F * F * F)%type |- _ => destruct st as [[[? ?] ?] ?]
      end;
      unfold source_report, target_report, success_report, separator in *;
      destruct (Args.terse args);
      repeat match goal with
      | Hr : In l (if ?c then _ else _) |- _ => destruct c
      | Hr : In l (_ ++ _) |- _ =>
          apply in_app_or in Hr; destruct Hr as [Hr|Hr]
      | Hr : In l (_ :: _) |- _ => destruct Hr as [Hr|Hr]
      | Hr : In l [] |- _ => destruct Hr
      | Hr : _ = l |- _ => subst l
      end;
      cbn in Hx;
      repeat match goal with
      | Hx : _ ∨ _ |- _ => destruct Hx as [Hx|Hx]
      | Hx : False |- _ => destruct Hx
      | Hx : _ = x |- _ => subst x
      end.
    all: simplify_eq.
    all: solve [first
      [ left; do 5 eexists; split; [left; find_in|];
        split; [find_in|find_in]
      | left; do 5 eexists; split; [right; find_in|];
        split; [find_in|find_in]
      | right; do 2 eexists; split; [find_in|];
        split; [find_in|reflexivity] ] ].
}
  - left. destruct Hstat as (xs & avg & std & p5 & p95 & Hsc & Hst & Hx').
    exists xs, avg, std, p5, p95. split; [|split; [|done]].
    + destruct Hsc; [left|right]; apply in_or_app; by right.
    + apply in_or_app; by right.
  - right. destruct Hsucc as (s & d & Hs & Hd & ->).
    exists s, d. repeat split; [apply in_or_app; by right..].
Qed.

Lemma final_args reg p args :
  In (EvParseArgs p (Ok args)) (trace (main W reg)) →
  ∃ a0 reg' b,
    argparse_parse_known_args W base_parser = Ok a0
    ∧ body_outcome W args (source_side a0) (target_side a0) reg' b
    ∧ main W reg
      = mkRun (result b) (registry b) (trace (get_args W reg) ++ trace b).
Proof using Type.
  intros Hin.
  pose proof (main_run W reg) as Hm. cbn zeta in Hm.
  pose proof (get_args_setup W reg) as Hsetup.
  destruct (get_args_outcomes W reg) as [| | | | |a0 c r reg' tl];
    cbn [result registry trace] in *;
    try (rewrite Hm in Hin; cbn [trace] in Hin; in_trace Hin;
         first [discriminate Hin | done]).
  destruct r as [args'|e].
  - destruct Hm as (b & Hb & Hm). rewrite Hm in Hin. cbn [trace] in Hin.
    apply in_app_or in Hin. destruct Hin as [Hin|Hin].
    + in_trace Hin; try discriminate Hin; try done.
      injection Hin as <- <-.
      by exists a0, reg', b.
    + pose proof (body_not_setup W _ _ _ _ _ Hb) as Hns.
      by pose proof (proj1 (List.Forall_forall _ _) Hns _ Hin).
  - rewrite Hm in Hin. cbn [trace] in Hin.
    in_trace Hin; first [discriminate Hin | done].
Qed.

Lemma printed_setup (t : list (Event F)) :
  Forall (λ ev, setup_event ev = true) t → printed t = [].
Proof using Type.
  induction 1 as [|ev t Hev _ IH]; [done|].
  unfold printed in *. cbn. rewrite IH. by destruct ev.
Qed.

Lemma stdout_main reg b :
  main W reg
  = mkRun (result b) (registry b) (trace (get_args W reg) ++ trace b) →
  stdout (main W reg) = printed (trace b).
Proof using Type.
  intros ->. unfold stdout. cbn [trace]. unfold printed at 1.
  rewrite omap_app. fold (printed (trace (get_args W reg))).
  fold (printed (trace b)).
  by rewrite (printed_setup _ (get_args_setup W reg)).
Qed.

(** C8. With [--terse] set, every line the program prints is a single
    number with three decimals, and the output of a run that completes
    is, in this order: the source-side mean times [--scale] if and only
    if the source side is active, the target-side mean times [--scale]
    if and only if the target side is active, and the success fraction
    (as a percentage) if and only if both are active.  No label and no
    separator is printed. *)
Theorem terse_output_is_numeric reg p args :
  In (EvParseArgs p (Ok args)) (trace (main W reg)) →
  Args.terse args = true →
  (∀ l, In l (stdout (main W reg)) → ∃ x, l = [Num 3 x])
  ∧ (result (main W reg) = Ok tt →
     ∃ a0 src_lines tgt_lines suc_lines,
       argparse_parse_known_args W base_parser = Ok a0
       ∧ (if source_side a0
          then ∃ s avg std p5 p95,
                 In (EvScore (Ok s)) (trace (main W reg))
                 ∧ In (EvStats s (Ok (avg, std, p5, p95)))
                     (trace (main W reg))
                 ∧ src_lines = [[Num 3 (fmul avg (Args.scale args))]]
          else src_lines = [])
       ∧ (if target_side a0
          then ∃ d avg std p5 p95,
                 In (EvRdScore (Ok d)) (trace (main W reg))
                 ∧ In (EvStats d (Ok (avg, std, p5, p95)))
                     (trace (main W reg))
                 ∧ tgt_lines = [[Num 3 (fmul avg (Args.scale args))]]
          else tgt_lines = [])
       ∧ (if source_side a0 && target_side a0
          then ∃ s d,
                 In (EvScore (Ok s)) (trace (main W reg))
                 ∧ In (EvRdScore (Ok d)) (trace (main W reg))
                 ∧ suc_lines
                   = [[Num 3 (fmul (fdiv (py_sum (success s d))
                                      (of_int (Z.of_nat (length s))))
                                (of_int 100))]]
          else suc_lines = [])
       ∧ stdout (main W reg) = src_lines ++ tgt_lines ++ suc_lines).
Proof using Type.
  intros Hin Hterse.
  destruct (final_args reg p args Hin) as (a0 & reg' & b & Hpk & Hb & Hm).
  rewrite (stdout_main reg b Hm). rewrite Hm. cbn [result trace]. clear Hin Hm.
  assert ((∀ l, In l (printed (trace b)) → ∃ x, l = [Num 3 x])
    ∧ (result b = Ok tt →
       ∃ src_lines tgt_lines suc_lines,
         (if source_side a0
          then ∃ s avg std p5 p95,
                 In (EvScore (Ok s)) (trace b)
                 ∧ In (EvStats s (Ok (avg, std, p5, p95))) (trace b)
                 ∧ src_lines = [[Num 3 (fmul avg (Args.scale args))]]
          else src_lines = [])
         ∧ (if target_side a0
            then ∃ d avg std p5 p95,
                   In (EvRdScore (Ok d)) (trace b)
                   ∧ In (EvStats d (Ok (avg, std, p5, p95))) (trace b)
                   ∧ tgt_lines = [[Num 3 (fmul avg (Args.scale args))]]
            else tgt_lines = [])
         ∧ (if source_side a0 && target_side a0
            then ∃ s d,
                   In (EvScore (Ok s)) (trace b)
                   ∧ In (EvRdScore (Ok d)) (trace b)
                   ∧ suc_lines
                     = [[Num 3 (fmul (fraction_of s d (length s))
                                  (of_int 100))]]
            else suc_lines = [])
         ∧ printed (trace b) = src_lines ++ tgt_lines ++ suc_lines))
    as [Hlines Hall].
  { destruct Hb; invert_blocks; cbn [result trace];
      repeat match goal with
      | st : (F * F * F * F)%type |- _ => destruct st as [[[? ?] ?] ?]
      end;
      unfold source_report, target_report, success_report;
      rewrite ?Hterse;
      repeat match goal with
      | Hside : source_side _ = _ |- _ => rewrite Hside in *; clear Hside
      | Hside : target_side _ = _ |- _ => rewrite Hside in *; clear Hside
      end;
      simplify_eq; cbn [andb];
      (split;
       [ intros l Hl; cbn in Hl;
         repeat match goal with
         | Hl : _ ∨ _ |- _ => destruct Hl as [Hl|Hl]
         | Hl : False |- _ => destruct Hl
         | Hl : _ = l |- _ => subst l
         end; by eexists
       | intros Hres; try discriminate Hres;
         do 3 eexists;
         repeat match goal with
         | |- _ ∧ _ => split
         | |- ∃ _, _ => eexists
         | |- In _ _ => find_in
         | |- _ = _ => reflexivity
         end ]). }
  split; [exact Hlines|].
  intros Hres. destruct (Hall Hres) as (src & tgt & suc & Hs & Ht & Hu & Hout).
  exists a0, src, tgt, suc. split; [done|].
  repeat split; [| | |exact Hout].
  - destruct (source_side a0); [|done].
    destruct Hs as (s & avg & std & p5 & p95 & ? & ? & ->).
    exists s, avg, std, p5, p95.
    repeat split; [apply in_or_app; by right..].
  - destruct (target_side a0); [|done].
    destruct Ht as (d & avg & std & p5 & p95 & ? & ? & ->).
    exists d, avg, std, p5, p95.
    repeat split; [apply in_or_app; by right..].
  - destruct (source_side a0 && target_side a0); [|done].
    destruct Hu as (s & d & ? & ? & ->).
    exists s, d. repeat split; [apply in_or_app; by right..].
Qed.

End Report.

Lemma sample_count_mismatch_witness :
  result (main (Sample.world Sample.args0 Sample.scorer_uneven)
            Sample.registry0)
  = Raise (ValueError
             ("The number of samples in the source (2) doesn't match "
              ++ "the number of samples in the target (3)")).
Proof.
  apply (sample_count_mismatch
           (Sample.world Sample.args0 Sample.scorer_uneven)
           Sample.registry0
           [Sample.q 9 10; Sample.q 1 2]
           [Sample.q 1 2; Sample.q 0 1; Sample.q 0 1]).
  - occurs.
  - occurs.
  - cbn. lia.
Defined.

Lemma success_fraction_is_per_sample_witness :
  let w := Sample.world Sample.args0 Sample.scorer0 in
  let s := [Sample.q 9 10; Sample.q 1 2] in
  let d := [Sample.q 1 2; Sample.q 0 1] in
  success s d = [Exact.Fin 1; Exact.Fin 0]
  ∧ success_fraction (success s d) (Some 2)
    = ret (Exact.Fin (1 # 2))
  ∧ result (main w Sample.registry0) = Ok tt.
Proof.
  split; [reflexivity|]. split; [reflexivity|].
  apply (success_fraction_is_per_sample
           (Sample.world Sample.args0 Sample.scorer0) Sample.registry0
           [Sample.q 9 10; Sample.q 1 2] [Sample.q 1 2; Sample.q 0 1]
           (Sample.q 1 4, Sample.q 1 4, Sample.q 1 40, Sample.q 19 40)).
  - occurs.
  - occurs.
  - occurs.
  - reflexivity.
  - cbn. lia.
Defined.

(** ** The range of the success fraction, on doubles

    The success values are 0.0 and 1.0; their partial sums are integers,
    which doubles hold exactly up to 2^53 (beyond, adding 1.0 leaves the
    sum at 2^53); the count of samples converts to a double that is at
    least the sum; and a correctly rounded quotient of two such doubles
    cannot exceed 1.0.  Each step is read off the definitions of
    [SpecFloat], which the primitive operations obey. *)
Module Binary64Facts.
Import SpecFloat PrimFloat FloatOps FloatAxioms Binary64.
Local Open Scope Z_scope.

(** *** Binary digits and shifts *)

(** Number of binary digits. *)
Lemma digits2_pos_bounds p :
  2 ^ (Zpos (digits2_pos p) - 1) ≤ Zpos p < 2 ^ Zpos (digits2_pos p).
Proof.
  induction p as [p IH|p IH|]; cbn [digits2_pos].
  - rewrite Pos2Z.inj_succ. pose proof (Pos2Z.inj_xI p) as Hp.
    replace (Z.succ (Zpos (digits2_pos p)) - 1)
      with (Z.succ (Zpos (digits2_pos p) - 1)) by lia.
    rewrite !Z.pow_succ_r by lia. lia.
  - rewrite Pos2Z.inj_succ. pose proof (Pos2Z.inj_xO p) as Hp.
    replace (Z.succ (Zpos (digits2_pos p)) - 1)
      with (Z.succ (Zpos (digits2_pos p) - 1)) by lia.
    rewrite !Z.pow_succ_r by lia. lia.
  - cbn. lia.
Qed.

Lemma Zdigits2_bounds m :
  0 < m → 2 ^ (Zdigits2 m - 1) ≤ m < 2 ^ Zdigits2 m.
Proof.
  destruct m as [|p|p]; [lia| |lia]. intros _. apply digits2_pos_bounds.
Qed.

Lemma Zdigits2_pos m : 0 < m → 0 < Zdigits2 m.
Proof. destruct m; cbn; lia. Qed.

Lemma Zdigits2_unique m a :
  2 ^ (a - 1) ≤ m < 2 ^ a → 0 < m → Zdigits2 m = a.
Proof.
  intros [Hlo Hhi] Hm.
  pose proof (Zdigits2_bounds m Hm) as [Hlo' Hhi'].
  pose proof (Zdigits2_pos m Hm) as Hd.
  assert (0 < a).
  { destruct (Z.lt_trichotomy a 0) as [Ha|[->|Ha]]; [|cbn in Hhi; lia|done].
    rewrite Z.pow_neg_r in Hhi by done. lia. }
  destruct (Z.lt_trichotomy (Zdigits2 m) a) as [Hlt|[Heq|Hgt]]; [|done|].
  - assert (2 ^ Zdigits2 m ≤ 2 ^ (a - 1)) by (apply Z.pow_le_mono_r; lia). lia.
  - assert (2 ^ a ≤ 2 ^ (Zdigits2 m - 1)) by (apply Z.pow_le_mono_r; lia). lia.
Qed.

Lemma Zdigits2_shift m n :
  0 < m → 0 ≤ n → Zdigits2 (m * 2 ^ n) = Zdigits2 m + n.
Proof.
  intros Hm Hn. pose proof (Zdigits2_bounds m Hm) as [Hlo Hhi].
  pose proof (Zdigits2_pos m Hm).
  assert (0 < 2 ^ n) by (apply Z.pow_pos_nonneg; lia).
  apply Zdigits2_unique; [|nia].
  replace (Zdigits2 m + n - 1) with (Zdigits2 m - 1 + n) by lia.
  rewrite !Z.pow_add_r by lia. nia.
Qed.

(** Shifting right. *)
Lemma shr_1_m mrs : 0 ≤ shr_m mrs → shr_m (shr_1 mrs) = shr_m mrs / 2.
Proof.
  destruct mrs as [m r s]. cbn [shr_m shr_1]. intros Hm.
  destruct m as [|[q|q|]|q]; cbn [shr_m]; try lia; try reflexivity.
  - pose proof (Pos2Z.inj_xI q). apply Z.div_unique with 1; lia.
  - pose proof (Pos2Z.inj_xO q). apply Z.div_unique with 0; lia.
Qed.

Lemma iter_shr_1_m p mrs :
  0 ≤ shr_m mrs → shr_m (SpecFloat.iter_pos shr_1 p mrs) = shr_m mrs / 2 ^ Zpos p.
Proof.
  revert mrs. induction p as [p IH|p IH|]; intros mrs Hm; cbn [SpecFloat.iter_pos].
  - assert (H1 : 0 ≤ shr_m (shr_1 mrs)).
    { rewrite shr_1_m by done. apply Z.div_pos; lia. }
    assert (H2 : 0 ≤ shr_m (SpecFloat.iter_pos shr_1 p (shr_1 mrs))).
    { rewrite IH by done. apply Z.div_pos; [done|]. apply Z.pow_pos_nonneg; lia. }
    rewrite IH, IH, shr_1_m by done.
    assert (0 < 2 ^ Zpos p) by (apply Z.pow_pos_nonneg; lia).
    rewrite !Z.div_div by lia. f_equal.
    replace (Zpos p~1) with (1 + Zpos p + Zpos p) by lia.
    rewrite !Z.pow_add_r by lia. lia.
  - assert (H2 : 0 ≤ shr_m (SpecFloat.iter_pos shr_1 p mrs)).
    { rewrite IH by done. apply Z.div_pos; [done|]. apply Z.pow_pos_nonneg; lia. }
    rewrite IH, IH by done.
    assert (0 < 2 ^ Zpos p) by (apply Z.pow_pos_nonneg; lia).
    rewrite !Z.div_div by lia. f_equal.
    replace (Zpos p~0) with (Zpos p + Zpos p) by lia.
    rewrite !Z.pow_add_r by lia. lia.
  - by apply shr_1_m.
Qed.

Lemma shr_1_exact z :
  0 ≤ z →
  shr_1 (Build_shr_record (2 * z) false false) = Build_shr_record z false false.
Proof. destruct z as [|p|p]; [done|done|lia]. Qed.

Lemma iter_shr_1_exact p z :
  0 ≤ z →
  SpecFloat.iter_pos shr_1 p (Build_shr_record (z * 2 ^ Zpos p) false false)
  = Build_shr_record z false false.
Proof.
  revert z. induction p as [p IH|p IH|]; intros z Hz; cbn [SpecFloat.iter_pos].
  - assert (0 < 2 ^ Zpos p) by (apply Z.pow_pos_nonneg; lia).
    replace (z * 2 ^ Zpos p~1) with (2 * ((z * 2 ^ Zpos p) * 2 ^ Zpos p)).
    2:{ replace (Zpos p~1) with (1 + Zpos p + Zpos p) by lia.
        rewrite !Z.pow_add_r by lia. lia. }
    rewrite shr_1_exact by nia. rewrite IH by nia. by apply IH.
  - assert (0 < 2 ^ Zpos p) by (apply Z.pow_pos_nonneg; lia).
    replace (z * 2 ^ Zpos p~0) with ((z * 2 ^ Zpos p) * 2 ^ Zpos p).
    2:{ replace (Zpos p~0) with (Zpos p + Zpos p) by lia.
        rewrite !Z.pow_add_r by lia. lia. }
    rewrite IH by nia. by apply IH.
  - replace (z * 2 ^ 1) with (2 * z) by lia. by apply shr_1_exact.
Qed.

(** [shr] by any amount. *)
Lemma shr_m_spec mrs e n :
  0 ≤ shr_m mrs →
  shr_m (fst (shr mrs e n)) = shr_m mrs / 2 ^ Z.max n 0
  ∧ snd (shr mrs e n) = e + Z.max n 0.
Proof.
  intros Hm. destruct n as [|p|p]; cbn [shr fst snd].
  - cbn. rewrite Z.div_1_r. lia.
  - rewrite iter_shr_1_m by done. split; [f_equal|]; f_equal; lia.
  - replace (Z.max (Z.neg p) 0) with 0 by lia. cbn. rewrite Z.div_1_r. lia.
Qed.

Lemma shr_exact z e n :
  0 ≤ z → 0 ≤ n →
  shr (Build_shr_record (z * 2 ^ n) false false) e n
  = (Build_shr_record z false false, e + n).
Proof.
  intros Hz Hn. destruct n as [|p|p]; cbn [shr]; [|by rewrite iter_shr_1_exact|lia].
  f_equal; [|lia]. f_equal. cbn. lia.
Qed.

(** The binary64 format. *)
Lemma fexp_binary64 e : fexp prec emax e = Z.max (e - 53) (-1074).
Proof. reflexivity. Qed.

Lemma shr_record_of_loc_m m l : shr_m (shr_record_of_loc m l) = m.
Proof. by destruct l as [|[]]. Qed.

Lemma round_nearest_even_cases m l :
  round_nearest_even m l = m ∨ round_nearest_even m l = m + 1.
Proof.
  destruct l as [|[]]; cbn; [by left| |by left|by right].
  destruct (Z.even m); [by left|by right].
Qed.

(** What [binary_round_aux] returns: the mantissa is cut to the format,
    rounded by at most one unit, and cut once more if rounding carried. *)
Definition cut (m e : Z) : Z := Z.max (fexp prec emax (Zdigits2 m + e) - e) 0.

Definition pack (s : bool) (m e : Z) : spec_float :=
  match m with
  | Z0 => S754_zero s
  | Zpos p => if e <=? 971 then S754_finite s p e else S754_infinity s
  | Zneg _ => S754_nan
  end.

Lemma shr_fexp_spec m e l :
  0 ≤ m →
  shr_m (fst (shr_fexp prec emax m e l)) = m / 2 ^ cut m e
  ∧ snd (shr_fexp prec emax m e l) = e + cut m e.
Proof.
  intros Hm. unfold shr_fexp, cut.
  destruct (shr_m_spec (shr_record_of_loc m l) e
              (fexp prec emax (Zdigits2 m + e) - e)) as [H1 H2].
  { by rewrite shr_record_of_loc_m. }
  by rewrite shr_record_of_loc_m in H1.
Qed.

Lemma shr_fexp_exact z e n :
  0 ≤ z → n = cut (z * 2 ^ n) e →
  shr_fexp prec emax (z * 2 ^ n) e loc_Exact
  = (Build_shr_record z false false, e + n).
Proof.
  intros Hz Hn. unfold shr_fexp. cbn [shr_record_of_loc].
  unfold cut in Hn.
  destruct (Z.max_spec (fexp prec emax (Zdigits2 (z * 2 ^ n) + e) - e) 0)
    as [[Hlt Hmax]|[Hle Hmax]].
  - assert (n = 0) as -> by lia. rewrite Z.mul_1_r in *.
    destruct (fexp prec emax (Zdigits2 z + e) - e) as [|p|p] eqn:E; [|lia|].
    + cbn. f_equal. lia.
    + cbn. f_equal. lia.
  - assert (Hn' : fexp prec emax (Zdigits2 (z * 2 ^ n) + e) - e = n) by lia.
    rewrite Hn'. apply shr_exact; lia.
Qed.

Lemma binary_round_aux_spec s m e l :
  0 ≤ m →
  ∃ m2, m / 2 ^ cut m e ≤ m2 ≤ m / 2 ^ cut m e + 1
        ∧ binary_round_aux prec emax s m e l
          = pack s (m2 / 2 ^ cut m2 (e + cut m e))
                   (e + cut m e + cut m2 (e + cut m e)).
Proof.
  intros Hm. unfold binary_round_aux.
  destruct (shr_fexp_spec m e l Hm) as [H1 H2].
  destruct (shr_fexp prec emax m e l) as [mrs' e'] eqn:E1.
  cbn [fst snd] in H1, H2. subst e'.
  set (m2 := round_nearest_even (shr_m mrs') (loc_of_shr_record mrs')).
  assert (Hm1 : 0 ≤ m / 2 ^ cut m e).
  { apply Z.div_pos; [done|]. apply Z.pow_pos_nonneg; unfold cut; lia. }
  assert (Hm2 : m / 2 ^ cut m e ≤ m2 ≤ m / 2 ^ cut m e + 1).
  { subst m2. rewrite <- H1.
    destruct (round_nearest_even_cases (shr_m mrs') (loc_of_shr_record mrs'))
      as [-> | ->]; lia. }
  exists m2. split; [done|].
  destruct (shr_fexp_spec m2 (e + cut m e) loc_Exact) as [H3 H4]; [lia|].
  destruct (shr_fexp prec emax m2 (e + cut m e) loc_Exact) as [mrs'' e''] eqn:E2.
  cbn [fst snd] in H3, H4. subst e''. rewrite H3. reflexivity.
Qed.

(** When nothing is lost, nothing is rounded. *)
Lemma binary_round_aux_exact s z e n :
  0 ≤ z → n = cut (z * 2 ^ n) e → cut z (e + n) = 0 →
  binary_round_aux prec emax s (z * 2 ^ n) e loc_Exact = pack s z (e + n).
Proof.
  intros Hz Hn Hc. unfold binary_round_aux.
  rewrite (shr_fexp_exact z e n Hz Hn). cbn [shr_m loc_of_shr_record round_nearest_even].
  destruct (shr_fexp_spec z (e + n) loc_Exact Hz) as [H3 H4].
  destruct (shr_fexp prec emax z (e + n) loc_Exact) as [mrs'' e''] eqn:E2.
  cbn [fst snd] in H3, H4. subst e''. rewrite H3, Hc. cbn [Z.pow].
  rewrite Z.div_1_r, Z.add_0_r. reflexivity.
Qed.

Lemma pow2_pos n : 0 ≤ n → 0 < 2 ^ n.
Proof. intros. apply Z.pow_pos_nonneg; lia. Qed.

Lemma shl_align_spec mx ex ex' :
  Zpos (fst (shl_align mx ex ex')) = Zpos mx * 2 ^ Z.max (ex - ex') 0
  ∧ snd (shl_align mx ex ex') = Z.min ex ex'.
Proof.
  unfold shl_align. destruct (ex' - ex) as [|d|d] eqn:E; cbn [fst snd].
  - replace (Z.max (ex - ex') 0) with 0 by lia. cbn. lia.
  - replace (Z.max (ex - ex') 0) with 0 by lia. cbn. lia.
  - replace (Z.max (ex - ex') 0) with (Zpos d) by lia. split; [|lia].
    change (Pos.iter xO mx d) with (shift_pos d mx).
    rewrite shift_pos_correct, Z.pow_pos_fold. lia.
Qed.

(** A binary64 number with a full mantissa. *)
Definition normal (z c : Z) : Prop :=
  2 ^ 52 ≤ z < 2 ^ 53 ∧ -1074 ≤ c.

Lemma normal_digits z c : normal z c → Zdigits2 z = 53.
Proof. intros [Hz _]. apply Zdigits2_unique; cbn in *; lia. Qed.

Lemma normal_cut z c : normal z c → cut z c = 0.
Proof.
  intros Hn. unfold cut. rewrite (normal_digits z c Hn), fexp_binary64.
  destruct Hn. lia.
Qed.

Lemma binary_round_aux_id s z c :
  normal z c → binary_round_aux prec emax s z c loc_Exact = pack s z c.
Proof.
  intros Hn.
  pose proof (binary_round_aux_exact s z c 0) as H.
  rewrite Z.mul_1_r, Z.add_0_r in H. destruct Hn as [Hz Hc].
  apply H; [cbn in Hz; lia| |]; by rewrite normal_cut.
Qed.

(** Rounding a number that the format holds returns it. *)
Lemma binary_round_exact s p e z c :
  normal z c →
  (c ≤ e ∧ z = Zpos p * 2 ^ (e - c)) ∨ (e ≤ c ∧ Zpos p = z * 2 ^ (c - e)) →
  binary_round prec emax s p e = pack s z c.
Proof.
  intros Hn Hv. pose proof (normal_digits z c Hn) as Hd.
  assert (Hz : 0 < z) by (destruct Hn as [Hz _]; cbn in Hz; lia).
  assert (Hdp : Zpos (digits2_pos p) + e = 53 + c).
  { change (Zpos (digits2_pos p)) with (Zdigits2 (Zpos p)).
    destruct Hv as [[Hc ->]|[Hc Hp]].
    - rewrite Zdigits2_shift in Hd by lia. lia.
    - rewrite Hp, Zdigits2_shift by lia. lia. }
  unfold binary_round. rewrite Hdp, fexp_binary64.
  replace (Z.max (53 + c - 53) (-1074)) with c by (destruct Hn; lia).
  destruct (shl_align_spec p e c) as [Hm He].
  destruct (shl_align p e c) as [mz ez]. cbn [fst snd] in Hm, He.
  destruct Hv as [[Hc Hv]|[Hc Hv]].
  - replace (Z.max (e - c) 0) with (e - c) in Hm by lia.
    replace ez with c by lia. rewrite Hm, <- Hv.
    by apply binary_round_aux_id.
  - replace (Z.max (e - c) 0) with 0 in Hm by lia.
    replace ez with e by lia. rewrite Hm, Z.mul_1_r, Hv.
    replace c with (e + (c - e)) at 2 by lia.
    apply binary_round_aux_exact; [lia| |].
    + unfold cut. rewrite <- Hv. change (Zdigits2 (Zpos p)) with (Zpos (digits2_pos p)).
      rewrite Hdp, fexp_binary64. destruct Hn. lia.
    + replace (e + (c - e)) with c by lia. by apply normal_cut.
Qed.

(** *** Integers as doubles *)

Definition SFone : spec_float := S754_finite false 4503599627370496 (-52).

Lemma SFint_0 : SFint 0 = S754_zero false.
Proof. reflexivity. Qed.

Lemma SFint_1 : SFint 1 = SFone.
Proof. reflexivity. Qed.

(** Integers up to 2^53 convert exactly. *)
Definition int_mantissa (k : Z) : Z := k * 2 ^ (53 - Zdigits2 k).
Definition int_exponent (k : Z) : Z := Zdigits2 k - 53.

Lemma int_digits k : 0 < k < 2 ^ 53 → 1 ≤ Zdigits2 k ≤ 53.
Proof.
  intros Hk. pose proof (Zdigits2_pos k) as H1.
  pose proof (Zdigits2_bounds k) as H2.
  split; [lia|].
  destruct (Z_le_gt_dec (Zdigits2 k) 53) as [|Hgt]; [done|].
  assert (2 ^ 53 ≤ 2 ^ (Zdigits2 k - 1)) by (apply Z.pow_le_mono_r; lia). lia.
Qed.

Lemma int_normal k :
  0 < k < 2 ^ 53 → normal (int_mantissa k) (int_exponent k).
Proof.
  intros Hk. pose proof (int_digits k Hk) as Hd.
  pose proof (Zdigits2_bounds k) as Hb.
  unfold normal, int_mantissa, int_exponent. split; [|lia].
  assert (0 < 2 ^ (53 - Zdigits2 k)) by (apply pow2_pos; lia).
  assert (E52 : 2 ^ 52 = 2 ^ (Zdigits2 k - 1) * 2 ^ (53 - Zdigits2 k)).
  { rewrite <- Z.pow_add_r by lia. f_equal. lia. }
  assert (E53 : 2 ^ 53 = 2 ^ Zdigits2 k * 2 ^ (53 - Zdigits2 k)).
  { rewrite <- Z.pow_add_r by lia. f_equal. lia. }
  rewrite E52, E53. nia.
Qed.

Lemma pack_normal s z c :
  normal z c → c ≤ 971 → pack s z c = S754_finite s (Z.to_pos z) c.
Proof.
  intros [Hz Hc] Hle. unfold pack.
  destruct z as [|p|p]; [cbn in Hz; lia| |lia].
  replace (c <=? 971) with true; [done|].
  symmetry. apply Z.leb_le. lia.
Qed.

Lemma SFint_small k :
  0 < k < 2 ^ 53 →
  SFint k = S754_finite false (Z.to_pos (int_mantissa k)) (int_exponent k).
Proof.
  intros Hk. pose proof (int_normal k Hk) as Hn.
  pose proof (int_digits k Hk) as Hd.
  rewrite <- pack_normal by (done || unfold int_exponent; lia).
  unfold SFint. destruct k as [|p|p]; [lia| |lia]. cbn [binary_normalize].
  apply binary_round_exact; [done|]. left.
  unfold int_exponent, int_mantissa. split; [lia|]. f_equal. f_equal. lia.
Qed.

Definition SFint_2_53 : spec_float := S754_finite false 4503599627370496 1.

Lemma SFint_big : SFint (2 ^ 53) = SFint_2_53.
Proof. reflexivity. Qed.

(** Adding 0.0 or 1.0 to an integer float. *)
Lemma SFint_finite k :
  0 < k ≤ 2 ^ 53 → ∃ m e, SFint k = S754_finite false m e.
Proof.
  intros Hk. destruct (Z.eq_dec k (2 ^ 53)) as [->|Hne].
  - by eexists _, _.
  - rewrite SFint_small by lia. by eexists _, _.
Qed.

Lemma SFint_add_0 k :
  0 ≤ k ≤ 2 ^ 53 → SF64add (SFint k) (SFint 0) = SFint k.
Proof.
  intros Hk. destruct (Z.eq_dec k 0) as [->|Hne]; [done|].
  destruct (SFint_finite k) as (m & e & ->); [lia|]. reflexivity.
Qed.

Lemma SFint_add_1 k :
  0 ≤ k ≤ 2 ^ 53 → SF64add (SFint k) (SFint 1) = SFint (Z.min (k + 1) (2 ^ 53)).
Proof.
  intros Hk. destruct (Z.eq_dec k 0) as [->|Hne]; [done|].
  destruct (Z.eq_dec k (2 ^ 53)) as [->|Hne'].
  { vm_compute. reflexivity. }
  assert (Hk' : 0 < k < 2 ^ 53) by lia.
  rewrite (SFint_small k Hk'), SFint_1.
  pose proof (int_normal k Hk') as [Hm _].
  pose proof (int_digits k Hk') as Hd.
  unfold SF64add, SFadd, SFone.
  replace (Z.min (int_exponent k) (-52)) with (-52) by (unfold int_exponent; lia).
  destruct (shl_align_spec (Z.to_pos (int_mantissa k)) (int_exponent k) (-52))
    as [Hx _].
  destruct (shl_align_spec 4503599627370496 (-52) (-52)) as [Hy _].
  cbn [cond_Zopp].
  set (mx := fst (shl_align (Z.to_pos (int_mantissa k)) (int_exponent k) (-52))) in *.
  set (my := fst (shl_align 4503599627370496 (-52) (-52))) in *.
  rewrite Z2Pos.id in Hx by (cbn in Hm; lia).
  replace (Z.max (int_exponent k - -52) 0) with (Zdigits2 k - 1) in Hx
    by (unfold int_exponent; lia).
  assert (Hx' : Zpos mx = k * 2 ^ 52).
  { rewrite Hx. unfold int_mantissa. rewrite <- Z.mul_assoc, <- Z.pow_add_r by lia.
    f_equal. f_equal. lia. }
  assert (Hy' : Zpos my = 2 ^ 52) by (rewrite Hy; reflexivity).
  assert (Hsum : Zpos mx + Zpos my = Zpos (mx + my)) by lia.
  rewrite Hsum. cbn [binary_normalize].
  assert (Hval : Zpos (mx + my) = (k + 1) * 2 ^ 52) by lia.
  destruct (Z.eq_dec (k + 1) (2 ^ 53)) as [Hmax|Hlt].
  - replace (Z.min (k + 1) (2 ^ 53)) with (2 ^ 53) by lia. rewrite SFint_big.
    change SFint_2_53 with (pack false (2 ^ 52) 1).
    apply binary_round_exact; [split; cbn; lia|]. right. split; [lia|].
    rewrite Hval, Hmax. reflexivity.
  - replace (Z.min (k + 1) (2 ^ 53)) with (k + 1) by lia.
    assert (Hk1 : 0 < k + 1 < 2 ^ 53) by lia.
    rewrite (SFint_small (k + 1) Hk1).
    pose proof (int_normal (k + 1) Hk1) as Hn1.
    pose proof (int_digits (k + 1) Hk1) as Hd1.
    rewrite <- pack_normal by (done || unfold int_exponent; lia).
    apply binary_round_exact; [done|]. right.
    unfold int_exponent, int_mantissa. split; [lia|].
    rewrite Hval, <- Z.mul_assoc, <- Z.pow_add_r by lia.
    f_equal. f_equal. lia.
Qed.

(** *** Quotients that do not exceed one *)

Definition in_unit (r : spec_float) : Prop :=
  SFleb (S754_zero false) r = true ∧ SFleb r SFone = true.

Lemma compare_cont_le p q :
  Zpos p ≤ Zpos q → Pos.compare_cont Eq p q ≠ Gt.
Proof.
  intros Hle E. change (Pos.compare p q = Gt) in E.
  apply Pos.compare_gt_iff in E. lia.
Qed.

Lemma pack_in_unit m e :
  0 ≤ m → e < -52 ∨ (e = -52 ∧ m ≤ 2 ^ 52) → in_unit (pack false m e).
Proof.
  intros Hm He. unfold pack. destruct m as [|p|p]; [done| |lia].
  replace (e <=? 971) with true by (symmetry; apply Z.leb_le; lia).
  split; [done|]. unfold SFleb, SFone, SFcompare.
  destruct (Z.compare_spec e (-52)) as [Heq|Hlt|Hgt]; [|done|lia].
  destruct He as [He|[_ Hp]]; [lia|].
  pose proof (compare_cont_le p 4503599627370496 Hp) as Hcmp.
  by destruct (Pos.compare_cont Eq p 4503599627370496).
Qed.

Lemma cut_nonneg m e : 0 ≤ cut m e.
Proof. unfold cut. lia. Qed.

Lemma Zdigits2_nonneg m : 0 ≤ Zdigits2 m.
Proof. destruct m; cbn; lia. Qed.

Lemma Zdigits2_le m a : 0 ≤ m < 2 ^ a → 0 ≤ a → Zdigits2 m ≤ a.
Proof.
  intros [Hm Hlt] Ha. destruct (Z.eq_dec m 0) as [->|Hne]; [done|].
  destruct (Zdigits2_bounds m) as [Hlo _]; [lia|].
  destruct (Z_le_gt_dec (Zdigits2 m) a) as [|Hgt]; [done|].
  assert (2 ^ a ≤ 2 ^ (Zdigits2 m - 1)) by (apply Z.pow_le_mono_r; lia). lia.
Qed.

Lemma div_pow2_lt m a c :
  0 ≤ m < 2 ^ a → 0 ≤ c → 0 ≤ a - c → m / 2 ^ c < 2 ^ (a - c).
Proof.
  intros Hm Hc Ha. apply Z.div_lt_upper_bound; [by apply pow2_pos|].
  rewrite <- Z.pow_add_r by lia. replace (c + (a - c)) with a by lia. lia.
Qed.

Lemma round_in_unit q e l :
  0 ≤ q → e ≤ -53 →
  q < 2 ^ (- e) ∨ (q = 2 ^ (- e) ∧ l = loc_Exact) →
  in_unit (binary_round_aux prec emax false q e l).
Proof.
  intros Hq He [Hlt|[-> ->]].
  - destruct (binary_round_aux_spec false q e l Hq) as (m2 & Hm2 & ->).
    pose proof (Zdigits2_le q (- e)) as Hd. pose proof (Zdigits2_nonneg q) as Hd0.
    pose proof (cut_nonneg q e) as Hc.
    set (c := cut q e) in *. set (e1 := e + c) in *.
    assert (He1 : -1074 ≤ e1 ≤ -53).
    { subst e1 c. unfold cut. rewrite fexp_binary64. lia. }
    assert (Hdc : Zdigits2 q ≤ c + 53).
    { subst c. unfold cut. rewrite fexp_binary64. lia. }
    assert (Hm1 : 0 ≤ q / 2 ^ c < 2 ^ 53).
    { split; [apply Z.div_pos; [done|by apply pow2_pos]|].
      destruct (Z.eq_dec q 0) as [->|Hne]; [by rewrite Z.div_0_l by (pose proof (pow2_pos c); lia)|].
      destruct (Zdigits2_bounds q) as [_ Hhi]; [lia|].
      replace 53 with (c + 53 - c) by lia. apply div_pow2_lt; [|done|lia].
      split; [done|]. eapply Z.lt_le_trans; [exact Hhi|].
      apply Z.pow_le_mono_r; lia. }
    destruct (Z.eq_dec m2 (2 ^ 53)) as [->|Hne].
    + assert (Hc2 : cut (2 ^ 53) e1 = 1).
      { unfold cut. change (Zdigits2 (2 ^ 53)) with 54. rewrite fexp_binary64. lia. }
      rewrite Hc2. change (2 ^ 53 / 2 ^ 1) with (2 ^ 52).
      apply pack_in_unit; [done|]. lia.
    + assert (Hm2' : 0 ≤ m2 < 2 ^ 53) by lia.
      pose proof (Zdigits2_le m2 53 Hm2') as Hd2.
      pose proof (Zdigits2_nonneg m2) as Hd2'.
      assert (Hc2 : cut m2 e1 = 0).
      { unfold cut. rewrite fexp_binary64. lia. }
      rewrite Hc2, Z.add_0_r. change (2 ^ 0) with 1. rewrite Z.div_1_r.
      apply pack_in_unit; lia.
  - replace (2 ^ (- e)) with (2 ^ 52 * 2 ^ (- e - 52))
      by (rewrite <- Z.pow_add_r by lia; f_equal; lia).
    rewrite binary_round_aux_exact.
    + replace (e + (- e - 52)) with (-52) by lia. by apply pack_in_unit; [|right].
    + done.
    + unfold cut. rewrite Zdigits2_shift by lia.
      change (Zdigits2 (2 ^ 52)) with 53. rewrite fexp_binary64. lia.
    + replace (e + (- e - 52)) with (-52) by lia. reflexivity.
Qed.

(** [x ≤ y] for two positive finite floats, on their mantissas aligned
    to the smaller exponent. *)
Definition le_val (mx : positive) (ex : Z) (my : positive) (ey : Z) : Prop :=
  Zpos mx * 2 ^ (ex - Z.min ex ey) ≤ Zpos my * 2 ^ (ey - Z.min ex ey).

Lemma new_location_0 n : new_location n 0 = loc_Exact.
Proof. unfold new_location. by destruct (Z.even n). Qed.

Lemma SFdiv_in_unit mx ex my ey :
  le_val mx ex my ey →
  in_unit (SF64div (S754_finite false mx ex) (S754_finite false my ey)).
Proof.
  intros Hle. unfold SF64div, SFdiv, SFdiv_core_binary. cbn [xorb].
  change (Zdigits2 (Zpos mx)) with (Zpos (digits2_pos mx)).
  change (Zdigits2 (Zpos my)) with (Zpos (digits2_pos my)).
  pose proof (digits2_pos_bounds mx) as [Hx1 Hx2].
  pose proof (digits2_pos_bounds my) as [Hy1 Hy2].
  set (dx := Zpos (digits2_pos mx)) in *. set (dy := Zpos (digits2_pos my)) in *.
  assert (Hdx : 0 < dx) by (subst dx; lia).
  assert (Hdy : 0 < dy) by (subst dy; lia).
  (* the magnitudes are ordered *)
  assert (Hmag : dx + ex ≤ dy + ey).
  { unfold le_val in Hle. set (mn := Z.min ex ey) in *.
    assert (0 ≤ ex - mn ∧ 0 ≤ ey - mn) as [H1 H2] by (subst mn; lia).
    pose proof (pow2_pos (ex - mn) H1). pose proof (pow2_pos (ey - mn) H2).
    assert (Hlo : 2 ^ (dx - 1 + (ex - mn)) ≤ Zpos mx * 2 ^ (ex - mn)).
    { rewrite Z.pow_add_r by lia. nia. }
    assert (Hhi : Zpos my * 2 ^ (ey - mn) < 2 ^ (dy + (ey - mn))).
    { rewrite Z.pow_add_r by lia. nia. }
    destruct (Z_le_gt_dec (dx + ex) (dy + ey)) as [|Hgt]; [done|].
    assert (2 ^ (dy + (ey - mn)) ≤ 2 ^ (dx - 1 + (ex - mn)))
      by (apply Z.pow_le_mono_r; lia).
    lia. }
  rewrite fexp_binary64.
  set (e' := Z.min (Z.max (dx + ex - (dy + ey) - 53) (-1074)) (ex - ey)).
  assert (He' : e' ≤ -53 ∧ e' ≤ ex - ey) by (subst e'; lia).
  destruct He' as [He1 He2].
  set (s := ex - ey - e').
  assert (Hs : 0 ≤ s) by (subst s; lia).
  set (m' := match s with
             | 0 => Zpos mx
             | Zpos _ => Z.shiftl (Zpos mx) s
             | Zneg _ => 0
             end).
  assert (Hm' : m' = Zpos mx * 2 ^ s).
  { subst m'. destruct s as [|p|p] eqn:Es; [cbn; lia| |lia].
    by rewrite Z.shiftl_mul_pow2. }
  clearbody m'.
  pose proof (pow2_pos s Hs) as Hps.
  pose proof (Z.div_eucl_eq m' (Zpos my)) as Heucl.
  pose proof (Z.mod_pos_bound m' (Zpos my)) as Hmod.
  unfold Z.modulo, Z.div in *.
  destruct (Z.div_eucl m' (Zpos my)) as [q r]. cbn [fst snd] in *.
  specialize (Heucl ltac:(lia)). specialize (Hmod ltac:(lia)).
  (* the quotient of the values is at most one *)
  assert (Hone : m' ≤ Zpos my * 2 ^ (- e')).
  { rewrite Hm'. unfold le_val in Hle. pose proof (pow2_pos (- e')).
    destruct (Z.min_spec ex ey) as [[Hlt Hmin]|[Hge Hmin]]; rewrite Hmin in Hle.
    - rewrite Z.sub_diag, Z.mul_1_r in Hle.
      replace (- e') with (ey - ex + s) by (subst s; lia).
      rewrite Z.pow_add_r by lia. nia.
    - rewrite Z.sub_diag, Z.mul_1_r in Hle.
      replace s with (ex - ey + - e') by (subst s; lia).
      rewrite Z.pow_add_r by lia.
      pose proof (pow2_pos (ex - ey)). nia. }
  pose proof (pow2_pos (- e') ltac:(lia)) as Hpe.
  assert (Hq : 0 ≤ q ≤ 2 ^ (- e')) by nia.
  apply round_in_unit; [lia|done|].
  destruct (Z.eq_dec q (2 ^ (- e'))) as [Heq|Hne]; [right|left; lia].
  split; [done|]. assert (r = 0) as -> by nia. apply new_location_0.
Qed.

(** *** Integers beyond 2^53 *)

Lemma div_pow2_ge m a c :
  2 ^ a ≤ m → 0 ≤ c ≤ a → 2 ^ (a - c) ≤ m / 2 ^ c.
Proof.
  intros Hm Hc. apply Z.div_le_lower_bound; [apply pow2_pos; lia|].
  rewrite <- Z.pow_add_r by lia. replace (c + (a - c)) with a by lia. lia.
Qed.

Lemma SFint_large N :
  2 ^ 53 ≤ N →
  SFint N = S754_infinity false
  ∨ ∃ m e, SFint N = S754_finite false m e
           ∧ 2 ^ 52 ≤ Zpos m < 2 ^ 53 ∧ 1 ≤ e ≤ 971.
Proof.
  intros HN. unfold SFint. destruct N as [|p|p]; [lia| |lia].
  cbn [binary_normalize]. unfold binary_round.
  change (Zpos (digits2_pos p)) with (Zdigits2 (Zpos p)).
  destruct (Zdigits2_bounds (Zpos p)) as [Hlo Hhi]; [lia|].
  set (D := Zdigits2 (Zpos p)) in *.
  assert (HD : 54 ≤ D).
  { destruct (Z_le_gt_dec 54 D) as [|Hgt]; [done|].
    assert (2 ^ D ≤ 2 ^ 53) by (apply Z.pow_le_mono_r; lia). lia. }
  rewrite Z.add_0_r, fexp_binary64.
  destruct (shl_align_spec p 0 (Z.max (D - 53) (-1074))) as [Hm He].
  destruct (shl_align p 0 (Z.max (D - 53) (-1074))) as [mz ez].
  cbn [fst snd] in Hm, He.
  replace (Z.max (0 - Z.max (D - 53) (-1074)) 0) with 0 in Hm by lia.
  rewrite Z.mul_1_r in Hm. assert (ez = 0) as -> by lia. rewrite Hm.
  destruct (binary_round_aux_spec false (Zpos p) 0 loc_Exact) as (m2 & Hm2 & ->);
    [lia|].
  assert (Hc : cut (Zpos p) 0 = D - 53).
  { unfold cut. fold D. rewrite Z.add_0_r, fexp_binary64. lia. }
  rewrite Hc in *. rewrite Z.add_0_l.
  assert (Hm1 : 2 ^ 52 ≤ Zpos p / 2 ^ (D - 53) < 2 ^ 53).
  { split.
    - replace 52 with (D - 1 - (D - 53)) by lia. apply div_pow2_ge; [done|lia].
    - replace 53 with (D - (D - 53)) at 2 by lia. apply div_pow2_lt; lia. }
  destruct (Z.eq_dec m2 (2 ^ 53)) as [->|Hne].
  - assert (Hc2 : cut (2 ^ 53) (D - 53) = 1).
    { unfold cut. change (Zdigits2 (2 ^ 53)) with 54. rewrite fexp_binary64. lia. }
    rewrite Hc2. change (2 ^ 53 / 2 ^ 1) with (Zpos 4503599627370496).
    cbn [pack]. destruct (Z.leb_spec (D - 53 + 1) 971); [right|by left].
    eexists _, _. split; [reflexivity|]. split; [done|lia].
  - assert (Hn : normal m2 (D - 53)) by (split; lia).
    rewrite (normal_cut _ _ Hn), Z.add_0_r. change (2 ^ 0) with 1.
    rewrite Z.div_1_r. destruct m2 as [|q|q]; [lia| |lia].
    cbn [pack]. destruct (Z.leb_spec (D - 53) 971); [right|by left].
    eexists _, _. split; [reflexivity|]. split; lia.
Qed.

(** *** Validity *)

Lemma normal_valid s (m : positive) c :
  normal (Zpos m) c → c ≤ 971 → valid_binary (S754_finite s m c) = true.
Proof.
  intros Hn Hc. unfold valid_binary, SpecFloat.valid_binary, bounded.
  apply andb_true_intro. split.
  - unfold canonical_mantissa. apply Z.eqb_eq.
    change (Zpos (digits2_pos m)) with (Zdigits2 (Zpos m)).
    rewrite (normal_digits _ _ Hn), fexp_binary64. destruct Hn. lia.
  - apply Z.leb_le. change (emax - prec) with 971. lia.
Qed.

Lemma SFint_valid N : 0 ≤ N → valid_binary (SFint N) = true.
Proof.
  intros HN. destruct (Z.eq_dec N 0) as [->|Hne]; [done|].
  destruct (Z_lt_le_dec N (2 ^ 53)) as [Hlt|Hge].
  - assert (HN' : 0 < N < 2 ^ 53) by lia.
    rewrite (SFint_small N HN').
    pose proof (int_normal N HN') as Hn. pose proof (int_digits N HN') as Hd.
    apply normal_valid; [|unfold int_exponent; lia].
    rewrite Z2Pos.id; [done|]. destruct Hn; lia.
  - destruct (SFint_large N Hge) as [->|(m & e & -> & Hm & He)]; [done|].
    apply normal_valid; [split|]; lia.
Qed.

(** *** Dividing a float count by a float total *)

Lemma Zdigits2_mono j N : 0 < j ≤ N → Zdigits2 j ≤ Zdigits2 N.
Proof.
  intros Hj. destruct (Zdigits2_bounds j) as [Hlo _]; [lia|].
  destruct (Zdigits2_bounds N) as [_ Hhi]; [lia|].
  destruct (Z_le_gt_dec (Zdigits2 j) (Zdigits2 N)) as [|Hgt]; [done|].
  assert (2 ^ Zdigits2 N ≤ 2 ^ (Zdigits2 j - 1)).
  { apply Z.pow_le_mono_r; [lia|]. pose proof (Zdigits2_nonneg N). lia. }
  lia.
Qed.

Lemma in_unit_zero : in_unit (S754_zero false).
Proof. done. Qed.

Lemma SFint_div_in_unit j N :
  0 ≤ j ≤ 2 ^ 53 → j ≤ N → 1 ≤ N →
  in_unit (SF64div (SFint j) (SFint N)).
Proof.
  intros Hj HjN HN.
  destruct (Z.eq_dec j 0) as [->|Hj0].
  { rewrite SFint_0. destruct (Z_lt_le_dec N (2 ^ 53)) as [Hlt|Hge].
    - rewrite (SFint_small N) by lia. apply in_unit_zero.
    - destruct (SFint_large N Hge) as [->|(m & e & -> & _)]; apply in_unit_zero. }
  destruct (Z_lt_le_dec N (2 ^ 53)) as [Hlt|Hge].
  - assert (Hj' : 0 < j < 2 ^ 53) by lia. assert (HN' : 0 < N < 2 ^ 53) by lia.
    rewrite (SFint_small j Hj'), (SFint_small N HN').
    pose proof (int_normal j Hj') as [Hmj _].
    pose proof (int_normal N HN') as [HmN _].
    pose proof (int_digits j Hj') as Hdj. pose proof (int_digits N HN') as HdN.
    pose proof (Zdigits2_mono j N ltac:(lia)) as Hmono.
    apply SFdiv_in_unit. unfold le_val.
    rewrite !Z2Pos.id by lia. unfold int_exponent.
    replace (Z.min (Zdigits2 j - 53) (Zdigits2 N - 53)) with (Zdigits2 j - 53) by lia.
    rewrite Z.sub_diag, Z.mul_1_r. unfold int_mantissa.
    rewrite <- Z.mul_assoc, <- Z.pow_add_r by lia.
    replace (53 - Zdigits2 N + (Zdigits2 N - 53 - (Zdigits2 j - 53)))
      with (53 - Zdigits2 j) by lia.
    pose proof (pow2_pos (53 - Zdigits2 j) ltac:(lia)). nia.
  - destruct (SFint_large N Hge) as [->|(my & ey & -> & Hmy & Hey)].
    { destruct (SFint_finite j) as (m & e & ->); [lia|]. apply in_unit_zero. }
    destruct (Z.eq_dec j (2 ^ 53)) as [->|Hne].
    + rewrite SFint_big. apply SFdiv_in_unit. unfold le_val.
      replace (Z.min 1 ey) with 1 by lia. rewrite Z.sub_diag, Z.mul_1_r.
      pose proof (pow2_pos (ey - 1) ltac:(lia)).
      change (Zpos 4503599627370496) with (2 ^ 52). nia.
    + assert (Hj' : 0 < j < 2 ^ 53) by lia.
      rewrite (SFint_small j Hj').
      pose proof (int_normal j Hj') as [Hmj _].
      pose proof (int_digits j Hj') as Hdj.
      apply SFdiv_in_unit. unfold le_val.
      rewrite !Z2Pos.id by lia. unfold int_exponent.
      replace (Z.min (Zdigits2 j - 53) ey) with (Zdigits2 j - 53) by lia.
      rewrite Z.sub_diag, Z.mul_1_r.
      assert (2 ^ 1 ≤ 2 ^ (ey - (Zdigits2 j - 53)))
        by (apply Z.pow_le_mono_r; lia).
      change (2 ^ 1) with 2 in *. nia.
Qed.

(** *** The success fraction *)

Lemma Prim2SF_of_Z z : 0 ≤ z → Prim2SF (of_Z z) = SFint z.
Proof. intros Hz. apply Prim2SF_SF2Prim. by apply SFint_valid. Qed.

Definition is_bit (x : float) : Prop := x = of_Z 0 ∨ x = of_Z 1.

Lemma success_bits (s d : list float) : Forall is_bit (success s d).
Proof.
  unfold success. apply List.Forall_forall. intros x Hin.
  apply in_map_iff in Hin. destruct Hin as (sd & <- & _).
  unfold float_of_bool. destruct (fgt _ _); [by right|by left].
Qed.

Lemma sum_bits (l : list float) :
  Forall is_bit l →
  ∀ acc j, Prim2SF acc = SFint j → 0 ≤ j ≤ 2 ^ 53 →
  ∃ j', Prim2SF (fold_left PrimFloat.add l acc) = SFint j'
        ∧ 0 ≤ j' ≤ 2 ^ 53 ∧ j' ≤ j + Z.of_nat (length l).
Proof.
  induction 1 as [|x l Hx _ IH]; intros acc j Hacc Hj.
  { exists j. cbn. split; [done|lia]. }
  cbn [fold_left length].
  destruct Hx as [-> | ->].
  - destruct (IH (acc + of_Z 0)%float j) as (j' & Hsum & Hj' & Hle).
    { rewrite add_spec, Hacc, Prim2SF_of_Z by lia. by apply SFint_add_0. }
    { done. }
    exists j'. split; [done|]. lia.
  - destruct (IH (acc + of_Z 1)%float (Z.min (j + 1) (2 ^ 53)))
      as (j' & Hsum & Hj' & Hle).
    { rewrite add_spec, Hacc, Prim2SF_of_Z by lia. by apply SFint_add_1. }
    { lia. }
    exists j'. split; [done|]. lia.
Qed.

Lemma success_fraction_range (s d : list float) (n : nat) :
  (1 ≤ n)%nat → (length s = n) → (length d = n) →
  let x := fdiv (py_sum (success s d)) (of_int (Z.of_nat n)) in
  PrimFloat.leb (of_int 0) x = true ∧ PrimFloat.leb x (of_int 1) = true.
Proof.
  intros Hn Hs Hd x. subst x. cbn [fdiv of_int float_ops].
  unfold py_sum. cbn [fadd of_int float_ops].
  destruct (sum_bits (success s d) (success_bits s d) (of_Z 0) 0)
    as (j & Hsum & Hj & Hle).
  { by apply Prim2SF_of_Z. }
  { lia. }
  assert (Hlen : length (success s d) = n).
  { unfold success. rewrite length_map, length_combine. lia. }
  rewrite Hlen in Hle.
  rewrite !leb_spec, div_spec, Hsum, !Prim2SF_of_Z by lia.
  rewrite SFint_1. apply SFint_div_in_unit; lia.
Qed.

End Binary64Facts.

Section SuccessRange.
Variable W : World PrimFloat.float.

(** C10. Whenever the success fraction is computed (both pipelines ran
    to the end on equally many samples, N >= 1), the double computed,
    which the success report then shows, satisfies 0 <= x <= 1, whatever
    doubles (finite, infinite or NaN) the scorer returned. *)
Theorem success_fraction_in_unit_interval reg s d st :
  In (EvScore (Ok s)) (trace (main W reg)) →
  In (EvRdScore (Ok d)) (trace (main W reg)) →
  In (EvStats d (Ok st)) (trace (main W reg)) →
  length s = length d →
  (1 ≤ length s)%nat →
  ∃ x,
    success_fraction (success s d) (Some (length s))
    = ret x
    ∧ PrimFloat.leb (of_int 0) x = true
    ∧ PrimFloat.leb x (of_int 1) = true
    ∧ ∃ p args before,
        In (EvParseArgs p (Ok args)) (trace (main W reg))
        ∧ trace (main W reg) = before ++ map EvPrint (success_report args x).
Proof using Type.
  intros Hs Hd Hst Hlen Hpos.
  exists (fraction_of s d (length s)). split.
  { unfold success_fraction, fraction_of. destruct (length s); [lia|done]. }
  destruct (Binary64Facts.success_fraction_range s d (length s))
    as [Hlo Hhi]; [done|done|done|].
  split; [done|]. split; [done|].
  apply (both_sides_run W reg s d st); try done. lia.
Qed.

End SuccessRange.

Lemma success_fraction_in_unit_interval_witness :
  ∃ x,
    success_fraction (success Sample64.s0 Sample64.d0) (Some 2) = ret x
    ∧ x = Sample64.half
    ∧ PrimFloat.leb (of_int 0) x = true
    ∧ PrimFloat.leb x (of_int 1) = true.
Proof.
  destruct (success_fraction_in_unit_interval
              (Sample64.world Sample64.args0 Sample64.scorer0)
              Sample.registry0
              Sample64.s0 Sample64.d0 Sample64.d0_stats)
    as (x & Hx & Hlo & Hhi & _).
  - occurs.
  - occurs.
  - occurs.
  - reflexivity.
  - cbn. lia.
  - exists x. split; [done|]. split; [|done].
    assert (Hc : success_fraction (success Sample64.s0 Sample64.d0) (Some 2)
                 = ret Sample64.half) by (vm_compute; reflexivity).
    assert (E : ret x = ret Sample64.half :> M (Event PrimFloat.float) _)
      by (rewrite <- Hc; symmetry; exact Hx).
    apply (f_equal (λ m, result (m Sample.registry0))) in E.
    cbn [ret result] in E. congruence.
Defined.

Lemma success_percentage_ignores_scale :
  let w := Sample.world Sample.args_scale10 Sample.scorer0 in
  let s := [Sample.q 9 10; Sample.q 1 2] in
  let d := [Sample.q 1 2; Sample.q 0 1] in
  Args.scale Sample.args_scale10 = Exact.Fin 10
  ∧ success_fraction (success s d) (Some 2) = ret (Exact.Fin (1 # 2))
  ∧ fmul (Exact.Fin (1 # 2)) (Exact.Fin 10) = Exact.Fin 5
  ∧ stdout (main w Sample.registry0)
    = [[Num 3 (Exact.Fin 7)]; [Num 3 (Exact.Fin (5 # 2))];
       [Num 3 (Exact.Fin 50)]].
Proof. vm_compute. done. Qed.

Lemma printed_statistics_are_scaled_witness :
  let w := Sample.world Sample.args_scale10 Sample.scorer0 in
  let x := Exact.Fin 50 in
  ∃ p args,
    In (EvParseArgs p (Ok args)) (trace (main w Sample.registry0))
    ∧ ((∃ xs avg std p5 p95,
          (In (EvScore (Ok xs)) (trace (main w Sample.registry0))
           ∨ In (EvRdScore (Ok xs)) (trace (main w Sample.registry0)))
          ∧ In (EvStats xs (Ok (avg, std, p5, p95)))
              (trace (main w Sample.registry0))
          ∧ In x [fmul avg (Args.scale args); fmul std (Args.scale args);
                  fmul p5 (Args.scale args); fmul p95 (Args.scale args)])
       ∨ (∃ s d,
            In (EvScore (Ok s)) (trace (main w Sample.registry0))
            ∧ In (EvRdScore (Ok d)) (trace (main w Sample.registry0))
            ∧ x = fmul (fdiv (py_sum (success s d))
                          (of_int (Z.of_nat (length s))))
                    (of_int 100))).
Proof.
  apply (printed_statistics_are_scaled
           (Sample.world Sample.args_scale10 Sample.scorer0)
           Sample.registry0 [Num 3 (Exact.Fin 50)] (Exact.Fin 50)).
  - occurs.
  - left. reflexivity.
Defined.

Lemma terse_output_is_numeric_witness :
  let w := Sample.world Sample.args_terse Sample.scorer0 in
  ∃ src_lines tgt_lines suc_lines,
    stdout (main w Sample.registry0) = src_lines ++ tgt_lines ++ suc_lines
    ∧ length src_lines = 1 ∧ length tgt_lines = 1 ∧ length suc_lines = 1.
Proof.
  destruct (terse_output_is_numeric
              (Sample.world Sample.args_terse Sample.scorer0)
              Sample.registry0 (add_args Sample.chrf_class base_parser)
              Sample.args_terse)
    as [_ Hall].
  - occurs.
  - reflexivity.
  - destruct (Hall eq_refl)
      as (a0 & src & tgt & suc & Hpk & Hs & Ht & Hu & Hout).
    injection Hpk as <-.
    destruct Hs as (? & ? & ? & ? & ? & _ & _ & ->).
    destruct Ht as (? & ? & ? & ? & ? & _ & _ & ->).
    destruct Hu as (? & ? & _ & _ & ->).
    eexists _, _, _. split; [exact Hout|]. by repeat split.
Defined.

(** * More about the driver *)

(** ** What [main] calls, and with what *)

Section Calls.
Context {F : Type} `{PyFloat F}.
Variable W : World F.

(** X1. The scorer's [score] is called only when the first parse gave
    both [--src] and [--adv-src]; its hypotheses are the lines of the
    adversarial source and its references the lines of the original
    source, both read from the paths of the final parse, and its
    language is [--src-lang]. *)
Theorem score_call_arguments reg r :
  In (EvScore r) (trace (main W reg)) →
  ∃ a0 c args scorer adv orig,
    argparse_parse_known_args W base_parser = Ok a0
    ∧ source_side a0 = true
    ∧ argparse_parse_args W (add_args c base_parser) = Ok args
    ∧ scorers_scorer_from_args W (registry (main W reg)) args = Ok scorer
    ∧ utils_loadtxt W (Args.adv_src args) = Ok adv
    ∧ utils_loadtxt W (Args.src args) = Ok orig
    ∧ r = Scorer.score scorer adv orig (Args.src_lang args).
Proof using Type.
  intros Hin.
  destruct (main_after_get_args W reg _ Hin eq_refl)
    as (a0 & c & args & reg' & b & Hpk & Hpa & _ & Hb & Hm).
  pose proof (in_main_body W reg b _ Hm Hin eq_refl) as Hin'.
  rewrite Hm. cbn [registry]. clear Hin Hm.
  exists a0, c, args.
  destruct Hb; invert_blocks; cbn [registry trace] in *;
    in_trace Hin'; try discriminate Hin'; injection Hin' as <-;
    eexists _, _, _; repeat split; eauto.
Qed.

(** X2. The scorer's [rd_score] is called only when the first parse
    gave [--ref], [--out] and [--adv-out]; its arguments are, in this
    order, the lines of the adversarial output, of the original output
    and of the reference, read from the paths of the final parse, and
    its language is [--tgt-lang]. *)
Theorem rd_score_call_arguments reg r :
  In (EvRdScore r) (trace (main W reg)) →
  ∃ a0 c args scorer adv orig rf,
    argparse_parse_known_args W base_parser = Ok a0
    ∧ target_side a0 = true
    ∧ argparse_parse_args W (add_args c base_parser) = Ok args
    ∧ scorers_scorer_from_args W (registry (main W reg)) args = Ok scorer
    ∧ utils_loadtxt W (Args.adv_out args) = Ok adv
    ∧ utils_loadtxt W (Args.out args) = Ok orig
    ∧ utils_loadtxt W (Args.ref args) = Ok rf
    ∧ r = Scorer.rd_score scorer adv orig rf (Args.tgt_lang args).
Proof using Type.
  intros Hin.
  destruct (main_after_get_args W reg _ Hin eq_refl)
    as (a0 & c & args & reg' & b & Hpk & Hpa & _ & Hb & Hm).
  pose proof (in_main_body W reg b _ Hm Hin eq_refl) as Hin'.
  rewrite Hm. cbn [registry]. clear Hin Hm.
  exists a0, c, args.
  destruct Hb; invert_blocks; cbn [registry trace] in *;
    in_trace Hin'; try discriminate Hin'; injection Hin' as <-;
    eexists _, _, _, _; repeat split; eauto.
Qed.

(** X3. The only files [main] reads are those named by the five path
    options in the final parse, and only those of a side that the first
    parse made active: adv-src and src for the source side, adv-out,
    out and ref for the target side. *)
Theorem only_active_side_files_are_read reg path r :
  In (EvLoadtxt path r) (trace (main W reg)) →
  ∃ a0 c args,
    argparse_parse_known_args W base_parser = Ok a0
    ∧ argparse_parse_args W (add_args c base_parser) = Ok args
    ∧ r = utils_loadtxt W path
    ∧ ((source_side a0 = true
        ∧ (path = Args.adv_src args ∨ path = Args.src args))
       ∨ (target_side a0 = true
          ∧ (path = Args.adv_out args ∨ path = Args.out args
             ∨ path = Args.ref args))).
Proof using Type.
  intros Hin.
  destruct (main_after_get_args W reg _ Hin eq_refl)
    as (a0 & c & args & reg' & b & Hpk & Hpa & _ & Hb & Hm).
  pose proof (in_main_body W reg b _ Hm Hin eq_refl) as Hin'.
  clear Hin Hm. exists a0, c, args.
  destruct Hb; invert_blocks; cbn [registry trace] in *;
    in_trace Hin'; try discriminate Hin'; injection Hin' as <- <-;
    repeat split; try done; tauto.
Qed.

End Calls.

(** Split a written-out trace at its last event. *)
Ltac split_last :=
  lazymatch goal with
  | |- ∃ before, ?x :: ?l = before ++ [?y] =>
      first
        [ exists []; reflexivity
        | let Hl := fresh "Hl" in
          let b := fresh "b" in
          assert (Hl : ∃ before, l = before ++ [y]) by split_last;
          destruct Hl as [b Hl]; exists (x :: b);
          exact (f_equal (cons x) Hl) ]
  | |- ∃ before, ?l1 ++ ?l2 = before ++ [?y] =>
      let Hl := fresh "Hl" in
      let b := fresh "b" in
      assert (Hl : ∃ before, l2 = before ++ [y]) by split_last;
      destruct Hl as [b Hl]; exists (l1 ++ b);
      exact (eq_trans (f_equal (app l1) Hl) (app_assoc l1 b [y]))
  end.

(** ** What a run prints, and when it stops *)

Section Output.
Context {F : Type} `{PyFloat F}.
Variable W : World F.

(** X4. [main] does not catch what [get_args] raises: when [get_args]
    fails, the run ends with that exception and [main] does nothing
    after [get_args]: none of its print statements runs, no scorer is
    built and no input file is read.  (What argparse or a custom source
    writes by itself is not an event of [main.py]; the statement is
    about the calls [main.py] makes.) *)
Theorem failed_get_args_ends_main reg e :
  result (get_args W reg) = Raise e →
  result (main W reg) = Raise e
  ∧ trace (main W reg) = trace (get_args W reg)
  ∧ Forall (λ ev, (∀ l, ev ≠ EvPrint l)
                  ∧ scoring_work ev = false
                  ∧ ∀ p r, ev ≠ EvLoadtxt p r)
      (trace (main W reg)).
Proof using Type.
  intros Hr. rewrite (main_get_args_raise W reg e Hr).
  cbn [result trace].
  split; [done|]. split; [done|].
  eapply Forall_impl; [apply (get_args_setup W reg)|]. by intros [].
Qed.

(** X5. A run in which both scorer calls returned can only complete if
    they returned equally many values, and at least one. *)
Theorem completed_run_has_matching_counts reg s d :
  result (main W reg) = Ok tt →
  In (EvScore (Ok s)) (trace (main W reg)) →
  In (EvRdScore (Ok d)) (trace (main W reg)) →
  length s = length d ∧ length s ≠ 0.
Proof using Type.
  intros Hres Hs Hd.
  destruct (main_after_get_args W reg _ Hs eq_refl)
    as (a0 & c & args & reg' & b & Hpk & Hpa & _ & Hb & Hm).
  pose proof (in_main_body W reg b _ Hm Hs eq_refl) as Hs'.
  pose proof (in_main_body W reg b _ Hm Hd eq_refl) as Hd'.
  rewrite Hm in Hres. cbn [result] in Hres. clear Hs Hd Hm.
  destruct Hb; invert_blocks; cbn [result trace] in *;
    try discriminate Hres;
    in_trace Hs'; try discriminate Hs'; injection Hs' as <-;
    in_trace Hd'; try discriminate Hd'; injection Hd' as <-;
    simplify_eq;
    try match goal with
    | Hsk : target_side ?a && source_side ?a = false,
      Hss : source_side ?a = true, Hts : target_side ?a = true |- _ =>
        rewrite Hss, Hts in Hsk; discriminate Hsk
    end.
  match goal with
  | Hsz : sizes_agree _ _ = true |- _ =>
      cbn in Hsz; apply Nat.eqb_eq in Hsz
  end.
  split; [done|done].
Qed.

(** X6. [main] computes the statistics of a side before it prints
    anything about it, and does not catch what the helper raises: if
    the statistics helper raises on a sequence (as it does on an empty
    one), the run ends with the helper's exception and that call is the
    last thing the run does; the sequence is what [score] or [rd_score]
    returned, and when it is what [score] returned none of [main]'s
    print statements has run. *)
Theorem statistics_failure_ends_run reg xs e :
  In (EvStats xs (Raise e)) (trace (main W reg)) →
  result (main W reg) = Raise e
  ∧ (∃ before, trace (main W reg) = before ++ [EvStats xs (Raise e)])
  ∧ (In (EvScore (Ok xs)) (trace (main W reg))
     ∨ In (EvRdScore (Ok xs)) (trace (main W reg)))
  ∧ (In (EvScore (Ok xs)) (trace (main W reg)) →
     Forall (λ ev, ∀ l, ev ≠ EvPrint l) (trace (main W reg))).
Proof using Type.
  intros Hin.
  pose proof (stats_event W reg xs _ Hin) as Hst.
  destruct (main_after_get_args W reg _ Hin eq_refl)
    as (a0 & c & args & reg' & b & Hpk & Hpa & _ & Hb & Hm).
  pose proof (in_main_body W reg b _ Hm Hin eq_refl) as Hin'.
  assert (Hsc : ∀ s, In (EvScore (Ok s)) (trace (main W reg)) →
                     In (EvScore (Ok s)) (trace b)).
  { intros s Hs. by apply (in_main_body W reg b _ Hm Hs). }
  pose proof (get_args_setup W reg) as Hsetup.
  rewrite Hm in Hsc |- *. cbn [result trace] in Hsc |- *. clear Hin Hm.
  assert (result b = Raise e
    ∧ (∃ before, trace b = before ++ [EvStats xs (Raise e)])
    ∧ (In (EvScore (Ok xs)) (trace b) ∨ In (EvRdScore (Ok xs)) (trace b))
    ∧ (In (EvScore (Ok xs)) (trace b) →
       Forall (λ ev, ∀ l, ev ≠ EvPrint l) (trace b)))
    as (Hres & (before & Hlast) & Hfrom & Hnone).
  { clear Hsc Hsetup.
    destruct Hb; invert_blocks; cbn [result trace] in *;
      in_trace Hin'; try discriminate Hin'; injection Hin' as <- <-.
    all: split; [done|]; split; [split_last|]; split;
      [first [left; find_in | right; find_in]|].
    all: intros Hs; in_trace Hs; try discriminate Hs;
      try (injection Hs as <-); try congruence.
    all: repeat first
           [ apply Forall_nil_2
           | apply Forall_cons_2; [intros l Hl; discriminate Hl|] ]. }
  split; [done|]. split; [|split].
  - exists (trace (get_args W reg) ++ before). by rewrite Hlast, app_assoc.
  - destruct Hfrom; [left|right]; apply in_or_app; by right.
  - intros Hs. apply Forall_app. split.
    + eapply Forall_impl; [exact Hsetup|]. by intros [].
    + by apply Hnone, Hsc.
Qed.

Lemma printed_app (t1 t2 : list (Event F)) :
  printed (t1 ++ t2) = printed t1 ++ printed t2.
Proof using Type. apply omap_app. Qed.

Lemma printed_cons (ev : Event F) t :
  printed (ev :: t) = printed [ev] ++ printed t.
Proof using Type. apply (printed_app [ev] t). Qed.

Lemma printed_prints (ls : list (Line F)) : printed (map EvPrint ls) = ls.
Proof using Type.
  induction ls as [|l ls IH]; [done|].
  unfold printed in *. cbn. by rewrite IH.
Qed.

(** X7. The output of a run that completes is the source report, the
    target report and the success report, in this order, each present
    exactly when its side (for the success report: both sides) was made
    active by the first parse; the statistics shown are those of the
    scores the scorer returned, and the target report is told whether
    the source side ran (in the long format it then starts with the
    separator). *)
Theorem report_layout reg :
  result (main W reg) = Ok tt →
  ∃ a0 c args scorer src tgt suc,
    argparse_parse_known_args W base_parser = Ok a0
    ∧ argparse_parse_args W (add_args c base_parser) = Ok args
    ∧ scorers_scorer_from_args W (registry (main W reg)) args = Ok scorer
    ∧ (if source_side a0
       then ∃ s st, In (EvScore (Ok s)) (trace (main W reg))
                    ∧ utils_stats W s = Ok st
                    ∧ src = source_report args scorer st
       else src = [])
    ∧ (if target_side a0
       then ∃ d st, In (EvRdScore (Ok d)) (trace (main W reg))
                    ∧ utils_stats W d = Ok st
                    ∧ tgt = target_report args (source_side a0) scorer st
       else tgt = [])
    ∧ (if target_side a0 && source_side a0
       then ∃ s d, In (EvScore (Ok s)) (trace (main W reg))
                   ∧ In (EvRdScore (Ok d)) (trace (main W reg))
                   ∧ suc = success_report args
                             (fdiv (py_sum (success s d))
                                (of_int (Z.of_nat (length s))))
       else suc = [])
    ∧ stdout (main W reg) = src ++ tgt ++ suc.
Proof using Type.
  intros Hres.
  destruct (main_cases W reg) as [[e He]|Hrun].
  { rewrite He in Hres. discriminate Hres. }
  destruct Hrun as (a0 & c & args & reg' & tl & b & Hpk & _ & _ & _ & _
                    & _ & _ & Hpa & Hb & _ & Hm).
  rewrite (stdout_main W reg b Hm).
  rewrite Hm in Hres |- *. cbn [result registry trace] in *.
  exists a0, c, args.
  assert (∃ scorer src tgt suc,
    scorers_scorer_from_args W (registry b) args = Ok scorer
    ∧ (if source_side a0
       then ∃ s st, In (EvScore (Ok s)) (trace b)
                    ∧ utils_stats W s = Ok st
                    ∧ src = source_report args scorer st
       else src = [])
    ∧ (if target_side a0
       then ∃ d st, In (EvRdScore (Ok d)) (trace b)
                    ∧ utils_stats W d = Ok st
                    ∧ tgt = target_report args (source_side a0) scorer st
       else tgt = [])
    ∧ (if target_side a0 && source_side a0
       then ∃ s d, In (EvScore (Ok s)) (trace b)
                   ∧ In (EvRdScore (Ok d)) (trace b)
                   ∧ suc = success_report args (fraction_of s d (length s))
       else suc = [])
    ∧ printed (trace b) = src ++ tgt ++ suc)
    as (scorer & src & tgt & suc & Hsc & Hs & Ht & Hu & Hout).
  { clear Hm.
    destruct Hb; invert_blocks; cbn [result registry trace] in *;
      try discriminate Hres;
      match goal with
      | Hsc : scorers_scorer_from_args _ _ _ = Ok ?sc |- _ => exists sc
      end;
      repeat match goal with
      | Hside : source_side _ = _ |- _ => rewrite Hside in *
      | Hside : target_side _ = _ |- _ => rewrite Hside in *
      end;
      simplify_eq; cbn [andb];
      do 3 eexists;
      (split; [eassumption|]);
      repeat match goal with
      | |- _ ∧ _ => split
      | |- ∃ _, _ => eexists
      | |- In _ _ => find_in
      | |- utils_stats _ _ = _ => eassumption
      | |- _ = _ => reflexivity
      end.
    all: rewrite printed_cons, !printed_app, !printed_prints;
      cbn [printed omap list_omap app]; rewrite ?app_nil_r; reflexivity. }
  exists scorer, src, tgt, suc.
  do 3 (split; [done|]). split; [|split; [|split; [|exact Hout]]].
  - destruct (source_side a0); [|done].
    destruct Hs as (s & st & ? & ? & ->). exists s, st.
    repeat split; [apply in_or_app; by right|done].
  - destruct (target_side a0); [|done].
    destruct Ht as (d & st & ? & ? & ->). exists d, st.
    repeat split; [apply in_or_app; by right|done].
  - destruct (target_side a0 && source_side a0); [|done].
    destruct Hu as (s & d & ? & ? & ->). exists s, d.
    repeat split; [apply in_or_app; by right..].
Qed.



Lemma in_printed (t : list (Event F)) l :
  In l (printed t) → In (EvPrint l) t.
Proof using Type.
  induction t as [|ev t IH]; [done|].
  rewrite printed_cons. intros Hin. apply in_app_or in Hin.
  destruct Hin as [Hin|Hin]; [|right; by apply IH].
  left. destruct ev; cbn in Hin; try done.
  destruct Hin as [->|[]]. done.
Qed.

(** X8. The separator line of 80 dashes is printed only in the long
    format and only when both sides are active: never with [--terse],
    and never in a run that evaluates one side alone. *)
Theorem separator_needs_both_sides reg :
  In separator (stdout (main W reg)) →
  ∃ a0 c args,
    argparse_parse_known_args W base_parser = Ok a0
    ∧ argparse_parse_args W (add_args c base_parser) = Ok args
    ∧ source_side a0 = true
    ∧ target_side a0 = true
    ∧ Args.terse args = false.
Proof using Type.
  intros Hin. apply in_printed in Hin.
  destruct (main_after_get_args W reg _ Hin eq_refl)
    as (a0 & c & args & reg' & b & Hpk & Hpa & _ & Hb & Hm).
  pose proof (in_main_body W reg b _ Hm Hin eq_refl) as Hin'.
  clear Hin Hm. exists a0, c, args. do 2 (split; [done|]).
  destruct Hb; invert_blocks; cbn [trace] in *;
    in_trace Hin'; try discriminate Hin'; injection Hin' as ->;
    repeat match goal with
    | st : (F * F * F * F)%type |- _ => destruct st as [[[? ?] ?] ?]
    end;
    unfold source_report, target_report, success_report in *;
    destruct (Args.terse args);
    repeat match goal with
    | Hr : In _ (if ?c then _ else _) |- _ => destruct c eqn:?
    | Hr : In _ (_ ++ _) |- _ =>
        apply in_app_or in Hr; destruct Hr as [Hr|Hr]
    | Hr : In _ (_ :: _) |- _ => destruct Hr as [Hr|Hr]
    | Hr : In _ [] |- _ => destruct Hr
    | Hr : _ = separator |- _ => first [discriminate Hr | clear Hr]
    end;
    simplify_eq;
    try match goal with
    | Hsk : target_side ?a && source_side ?a = true |- _ =>
        apply andb_true_iff in Hsk; destruct Hsk
    end;
    try done.
Qed.

(** X9. When the scorer is built, the registry it is built from is the
    initial registry with every listed custom source loaded in order,
    and [main] leaves the registry in that state: after [get_args]
    nothing registers or unregisters a scorer. *)
Theorem scorer_is_built_from_loaded_registry reg args :
  In (EvScorerFromArgs args) (trace (main W reg)) →
  ∃ a0 c,
    argparse_parse_known_args W base_parser = Ok a0
    ∧ argparse_parse_args W (add_args c base_parser) = Ok args
    ∧ load_all W (Args.custom_scores_source a0) reg
      = Ok (registry (main W reg))
    ∧ lookup_scorer_class (registry (main W reg)) (Args.score a0) = Ok c.
Proof using Type.
  intros Hin.
  destruct (main_cases W reg) as [[e He]|Hrun].
  { rewrite He in Hin. cbn [trace] in Hin.
    pose proof (proj1 (List.Forall_forall _ _) (get_args_setup W reg) _ Hin).
    done. }
  destruct Hrun as (a0 & c & args' & reg' & tl & b & Hpk & _ & _ & _ & Hload
                    & _ & Hc & Hpa & Hb & _ & Hm).
  pose proof (in_main_body W reg b _ Hm Hin eq_refl) as Hin'.
  rewrite Hm. cbn [registry]. clear Hin Hm.
  assert (registry b = reg' ∧ args = args') as [-> ->].
  { destruct Hb; invert_blocks; cbn [registry trace] in *;
      in_trace Hin'; try discriminate Hin'; by injection Hin' as <-. }
  by exists a0, c.
Qed.

End Output.

(** ** Loading custom scorers *)

Section CustomSources.
Context {F : Type} `{PyFloat F}.
Variable W : World F.

(** The custom-source loop of [get_args], by itself. *)
Definition load_custom_sources (files : list string) : M (Event F) unit :=
  for_ files (λ source_file,
    let path := os_path_abspath W source_file in
    bind (isfile W path) (λ found,
      if negb found
      then raise (ValueError (missing_custom_msg path))
      else read_custom_scorers_source W path)).

(** An event of the loop over [files]: the existence check of a listed
    file, or the load of a listed file that exists. *)
Definition load_event (files : list string) (ev : Event F) : Prop :=
  ∃ file,
    In file files
    ∧ (ev = EvIsFile (os_path_abspath W file)
              (os_path_isfile W (os_path_abspath W file))
       ∨ (os_path_isfile W (os_path_abspath W file) = true
          ∧ ∃ reg,
              ev = EvReadCustomScorersSource (os_path_abspath W file)
                     (scorers_read_custom_scorers_source W
                        (os_path_abspath W file) reg))).

Lemma load_custom_step file rest reg :
  load_custom_sources (file :: rest) reg
  = let path := os_path_abspath W file in
    if os_path_isfile W path
    then match scorers_read_custom_scorers_source W path reg with
         | Ok reg' =>
             let r := load_custom_sources rest reg' in
             mkRun (result r) (registry r)
               ([EvIsFile path true;
                 EvReadCustomScorersSource path (Ok reg')] ++ trace r)
         | Raise e =>
             mkRun (Raise e) reg
               [EvIsFile path true; EvReadCustomScorersSource path (Raise e)]
         end
    else mkRun (Raise (ValueError (missing_custom_msg path))) reg
           [EvIsFile path false].
Proof using Type.
  unfold load_custom_sources. cbn [for_]. cbv zeta.
  set (path := os_path_abspath W file).
  unfold bind at 1. unfold bind at 1. unfold isfile, call.
  destruct (os_path_isfile W path); cbn [negb]; [|done].
  unfold read_custom_scorers_source.
  destruct (scorers_read_custom_scorers_source W path reg); [|done].
  by destruct (for_ rest _ _).
Qed.

Lemma load_custom_events files reg :
  Forall (load_event files) (trace (load_custom_sources files reg)).
Proof using Type.
  revert reg. induction files as [|file rest IH]; intros reg; [constructor|].
  rewrite load_custom_step. cbv zeta.
  assert (Hin : In file (file :: rest)) by (by left).
  destruct (os_path_isfile W (os_path_abspath W file)) eqn:Hfile.
  - assert (Hcheck : load_event (file :: rest)
                       (EvIsFile (os_path_abspath W file) true)).
    { exists file. split; [done|]. left. by rewrite Hfile. }
    destruct (scorers_read_custom_scorers_source W _ reg) as [reg'|e] eqn:Hrd;
      cbn [trace app].
    + constructor; [done|]. constructor.
      { exists file. split; [done|]. right. split; [done|].
        exists reg. by rewrite Hrd. }
      eapply Forall_impl; [apply IH|].
      intros ev (f & Hf & Hev). exists f. split; [by right|done].
    + constructor; [done|]. constructor; [|constructor].
      exists file. split; [done|]. right. split; [done|].
      exists reg. by rewrite Hrd.
  - cbn [trace]. constructor; [|constructor].
    exists file. split; [done|]. left. by rewrite Hfile.
Qed.

Lemma load_custom_ok files reg :
  result (load_custom_sources files reg) = Ok tt →
  Forall (λ file, os_path_isfile W (os_path_abspath W file) = true) files.
Proof using Type.
  revert reg. induction files as [|file rest IH]; intros reg; [constructor|].
  rewrite load_custom_step. cbv zeta.
  destruct (os_path_isfile W (os_path_abspath W file)) eqn:Hfile; [|done].
  destruct (scorers_read_custom_scorers_source W _ reg) as [reg'|e];
    cbn [result]; [|done].
  intros Hok. constructor; [done|]. by eapply IH.
Qed.

Lemma load_custom_missing before file after reg reg1 :
  Forall (λ f, os_path_isfile W (os_path_abspath W f) = true) before →
  load_all W before reg = Ok reg1 →
  os_path_isfile W (os_path_abspath W file) = false →
  ∃ t,
    load_custom_sources (before ++ file :: after) reg
    = mkRun (Raise (ValueError (missing_custom_msg (os_path_abspath W file))))
        reg1 t
    ∧ loaded t = map (os_path_abspath W) before.
Proof using Type.
  intros Hex. revert reg. induction Hex as [|f before Hf _ IH];
    intros reg Hload Hfile; cbn [app].
  - injection Hload as ->. rewrite load_custom_step. cbv zeta.
    rewrite Hfile. by eexists.
  - cbn [load_all] in Hload. rewrite load_custom_step. cbv zeta.
    rewrite Hf.
    destruct (scorers_read_custom_scorers_source W _ reg) as [reg'|e];
      [|done].
    destruct (IH reg' Hload Hfile) as (t & -> & Hl). cbn [result registry trace].
    eexists. split; [reflexivity|]. cbn [map]. rewrite <- Hl. reflexivity.
Qed.

Lemma first_missing_none (args : Args.t F) names :
  first_missing W args names = None →
  ∀ name f, In name names → getattr args name = Some f →
            os_path_isfile W f = true.
Proof using Type.
  intros Hfm name f Hin Hg.
  destruct (os_path_isfile W f) eqn:Hfile; [done|].
  destruct (first_missing_exists W args names name f Hin Hg Hfile)
    as (? & ? & ?). congruence.
Qed.

Lemma all_exist_first_missing (args : Args.t F) names :
  (∀ name f, In name names → getattr args name = Some f →
             os_path_isfile W f = true) →
  first_missing W args names = None.
Proof using Type.
  intros Hall.
  destruct (first_missing W args names) as [[n f]|] eqn:Hfm; [|done].
  destruct (first_missing_spec W args names n f Hfm)
    as (Hn & Hf & _ & before & after & -> & _).
  rewrite (Hall n f) in Hf; [done| |done].
  apply in_or_app. right. by left.
Qed.

(** Events of [get_args] after the custom-source loop. *)
Definition resolve_event (ev : Event F) : Prop :=
  match ev with
  | EvGetScorerClass _ _ _ | EvAddArgs _ | EvParseArgs _ _ => True
  | _ => False
  end.

(** [get_args] past its two checks: it runs the custom-source loop and,
    if the loop raises, stops there. *)
Lemma get_args_loads reg a0 :
  argparse_parse_known_args W base_parser = Ok a0 →
  source_side a0 || target_side a0 = true →
  first_missing W a0 path_names = None →
  let L := load_custom_sources (Args.custom_scores_source a0) reg in
  (∃ rest,
     trace (get_args W reg)
     = EvParseKnownArgs base_parser (Ok a0)
       :: checks W a0 path_names ++ trace L ++ rest
     ∧ Forall resolve_event rest)
  ∧ registry (get_args W reg) = registry L
  ∧ (∀ e, result L = Raise e →
          get_args W reg
          = mkRun (Raise e) (registry L)
              (EvParseKnownArgs base_parser (Ok a0)
               :: checks W a0 path_names ++ trace L))
  ∧ (∀ v, result (get_args W reg) = Ok v → result L = Ok tt).
Proof using Type.
  intros Hpk Hside Hfm L. unfold get_args.
  erewrite bind_ok; [|unfold parse_known_args, call; by rewrite Hpk].
  cbv beta zeta. rewrite Hside. cbn [negb].
  erewrite bind_ok; [|reflexivity]. cbv beta.
  erewrite bind_ok; [|rewrite check_files_run, Hfm; reflexivity].
  cbv beta.
  change (for_ (Args.custom_scores_source a0) _)
    with (load_custom_sources (Args.custom_scores_source a0)).
  fold L.
  destruct L as [[[]|e] reg' tl] eqn:HL; cbn [result registry trace].
  2:{ erewrite bind_raise; [|exact HL]. cbn [result registry trace app].
      split; [|split; [done|split; [by intros e' [= <-]|done]]].
      exists []. split; [by rewrite app_nil_r|constructor]. }
  erewrite bind_ok; [|exact HL]. cbv beta.
  destruct (lookup_scorer_class reg' (Args.score a0)) as [c|e] eqn:Hc.
  2:{ erewrite bind_raise;
        [|unfold get_scorer_class; rewrite Hc; reflexivity].
      cbn [result registry trace app].
      split; [|split; [done|split; [done|done]]].
      eexists. split; [reflexivity|]. by repeat constructor. }
  erewrite bind_ok; [|unfold get_scorer_class; rewrite Hc; reflexivity].
  cbv beta.
  erewrite bind_ok; [|reflexivity]. cbv beta.
  destruct (argparse_parse_args W (add_args c base_parser)) as [args|e]
    eqn:Hpa.
  - erewrite bind_ok; [|unfold parse_args, call; rewrite Hpa; reflexivity].
    cbn [result registry trace app].
    split; [|split; [done|split; [done|done]]].
    eexists. split; [reflexivity|]. by repeat constructor.
  - erewrite bind_raise;
      [|unfold parse_args, call; rewrite Hpa; reflexivity].
    cbn [result registry trace app].
    split; [|split; [done|split; [done|done]]].
    eexists. split; [reflexivity|]. by repeat constructor.
Qed.

(** Events of a run that stopped at a check: the first parse, existence
    checks and custom-source loads. *)
Definition check_or_load (ev : Event F) : bool :=
  match ev with
  | EvParseKnownArgs _ _ | EvIsFile _ _ | EvReadCustomScorersSource _ _ =>
      true
  | _ => false
  end.

(** X10. When the command line passes the group check and every provided
    input path exists, the custom sources are taken in the order listed:
    if the first one whose absolute path is not a file comes after
    sources that all loaded, the program fails with the error naming
    that absolute path.  The sources before it have been loaded and
    stay registered; no later source is loaded, no scorer class is
    looked up and the final parse does not happen. *)
Theorem missing_custom_source_is_reported reg a0 before file after reg1 :
  argparse_parse_known_args W base_parser = Ok a0 →
  source_side a0 || target_side a0 = true →
  (∀ name f, In name path_names → getattr a0 name = Some f →
             os_path_isfile W f = true) →
  Args.custom_scores_source a0 = before ++ file :: after →
  Forall (λ f, os_path_isfile W (os_path_abspath W f) = true) before →
  load_all W before reg = Ok reg1 →
  os_path_isfile W (os_path_abspath W file) = false →
  result (main W reg)
  = Raise (ValueError (missing_custom_msg (os_path_abspath W file)))
  ∧ registry (main W reg) = reg1
  ∧ loaded (trace (main W reg)) = map (os_path_abspath W) before
  ∧ Forall (λ ev, check_or_load ev = true) (trace (main W reg)).
Proof using Type.
  intros Hpk Hside Hall Hfiles Hex Hload Hfile.
  pose proof (all_exist_first_missing a0 path_names Hall) as Hfm.
  destruct (get_args_loads reg a0 Hpk Hside Hfm) as (_ & _ & Hraise & _).
  destruct (load_custom_missing before file after reg reg1 Hex Hload Hfile)
    as (t & HL & Hloaded).
  rewrite Hfiles, HL in Hraise. cbn [result registry trace] in Hraise.
  specialize (Hraise _ eq_refl).
  pose proof (load_custom_events (before ++ file :: after) reg) as Hev.
  rewrite HL in Hev. cbn [trace] in Hev.
  rewrite (main_get_args_raise W reg
             (ValueError (missing_custom_msg (os_path_abspath W file))));
    rewrite Hraise; cbn [result registry trace]; [|done].
  split; [done|]. split; [done|]. split.
  - change (loaded (checks W a0 path_names ++ t)
            = map (os_path_abspath W) before).
    by rewrite loaded_app, loaded_checks.
  - constructor; [done|]. apply Forall_app. split.
    + apply List.Forall_forall. intros ev Hin.
      by destruct (checks_are_isfile W a0 path_names ev Hin) as (? & ? & ->).
    + eapply Forall_impl; [exact Hev|].
      intros ev (f & _ & [-> | (_ & ? & ->)]); done.
Qed.

(** X11. A custom source is loaded only after the command line has passed
    the group check and every provided input path has been found to
    exist; what is loaded is the absolute path of a listed source, and
    only one that is an existing file. *)
Theorem custom_source_is_loaded_after_checks reg path r :
  In (EvReadCustomScorersSource path r) (trace (main W reg)) →
  ∃ a0 file,
    argparse_parse_known_args W base_parser = Ok a0
    ∧ source_side a0 || target_side a0 = true
    ∧ (∀ name f, In name path_names → getattr a0 name = Some f →
                 os_path_isfile W f = true)
    ∧ In file (Args.custom_scores_source a0)
    ∧ path = os_path_abspath W file
    ∧ os_path_isfile W path = true.
Proof using Type.
  intros Hin.
  assert (Hg : In (EvReadCustomScorersSource path r)
                 (trace (get_args W reg))).
  { destruct (main_cases W reg) as [[e He]|Hrun].
    - by rewrite He in Hin.
    - destruct Hrun as (a0 & c & args & reg' & tl & b & _ & _ & _ & _ & _
                        & _ & _ & _ & Hb & _ & Hm).
      rewrite Hm in Hin. cbn [trace] in Hin.
      apply in_app_or in Hin. destruct Hin as [Hin|Hin]; [done|].
      pose proof (body_not_setup W _ _ _ _ _ Hb) as Hns.
      by pose proof (proj1 (List.Forall_forall _ _) Hns _ Hin). }
  clear Hin.
  assert (∃ a0, argparse_parse_known_args W base_parser = Ok a0
                ∧ source_side a0 || target_side a0 = true
                ∧ first_missing W a0 path_names = None)
    as (a0 & Hpk & Hside & Hfm).
  { destruct (get_args_outcomes W reg); cbn [trace] in Hg;
      try (in_trace Hg; discriminate Hg); by eexists. }
  destruct (get_args_loads reg a0 Hpk Hside Hfm) as ((rest & Htr & Hrest) & _).
  rewrite Htr in Hg.
  pose proof (load_custom_events (Args.custom_scores_source a0) reg) as Hev.
  destruct Hg as [Hg|Hg]; [discriminate Hg|].
  apply in_app_or in Hg. destruct Hg as [Hg|Hg].
  { by destruct (checks_are_isfile W a0 path_names _ Hg) as (? & ? & ?). }
  apply in_app_or in Hg. destruct Hg as [Hg|Hg].
  - destruct (proj1 (List.Forall_forall _ _) Hev _ Hg)
      as (file & Hfile & [Heq | (Hex & reg1 & Heq)]); [discriminate Heq|].
    injection Heq as -> _.
    exists a0, file. repeat split; try done.
    by apply first_missing_none.
  - by pose proof (proj1 (List.Forall_forall _ _) Hrest _ Hg).
Qed.

(** X12. What holds when [get_args] returns: the sides it returns are
    those of the first parse and at least one is active; every provided
    input path and every listed custom source exists; the registry is
    the initial one with the custom sources loaded in order; the class
    named by [--score] is registered in it; and the namespace returned
    is the final parse, made with that class's options declared. *)
Theorem get_args_postcondition reg args ss ts :
  result (get_args W reg) = Ok (args, ss, ts) →
  ∃ a0 c,
    argparse_parse_known_args W base_parser = Ok a0
    ∧ ss = source_side a0
    ∧ ts = target_side a0
    ∧ ss || ts = true
    ∧ (∀ name f, In name path_names → getattr a0 name = Some f →
                 os_path_isfile W f = true)
    ∧ Forall (λ f, os_path_isfile W (os_path_abspath W f) = true)
        (Args.custom_scores_source a0)
    ∧ load_all W (Args.custom_scores_source a0) reg
      = Ok (registry (get_args W reg))
    ∧ lookup_scorer_class (registry (get_args W reg)) (Args.score a0) = Ok c
    ∧ argparse_parse_args W (add_args c base_parser) = Ok args.
Proof using Type.
  intros Hres.
  assert (∃ a0 c,
    argparse_parse_known_args W base_parser = Ok a0
    ∧ ss = source_side a0 ∧ ts = target_side a0
    ∧ source_side a0 || target_side a0 = true
    ∧ first_missing W a0 path_names = None
    ∧ load_all W (Args.custom_scores_source a0) reg
      = Ok (registry (get_args W reg))
    ∧ lookup_scorer_class (registry (get_args W reg)) (Args.score a0) = Ok c
    ∧ argparse_parse_args W (add_args c base_parser) = Ok args)
    as (a0 & c & Hpk & -> & -> & Hside & Hfm & Hload & Hc & Hpa).
  { revert Hres.
    destruct (get_args_outcomes W reg) as [| | | | |a0 c r reg' tl];
      cbn [result registry]; try discriminate.
    destruct r as [args'|e]; [|discriminate].
    intros [= <- <- <-]. by exists a0, c. }
  exists a0, c. repeat split; try done.
  - by apply first_missing_none.
  - destruct (get_args_loads reg a0 Hpk Hside Hfm) as (_ & _ & _ & Hok).
    eapply load_custom_ok, Hok, Hres.
Qed.

End CustomSources.

(** ** More sample invocations *)
Module Sample2.
Import Exact.

(** All five paths, two custom sources of which the second is absent:
    [--custom-scores-source my_scorer.py absent.py]. *)
Definition args_absent_custom : Args.t t :=
  Args.mk "mine" (Some "src.txt") (Some "adv.txt") (Some "ref.txt")
    (Some "out.txt") (Some "advout.txt") None None (Sample.q 100 1) false
    ["my_scorer.py"; "absent.py"].

(** A scorer that returns no value at all. *)
Definition scorer_empty : Scorer.t t :=
  Scorer.mk "chrf" (λ _ _ _, Ok []) (λ _ _ _ _, Ok []).

End Sample2.

Lemma score_call_arguments_witness :
  let w := Sample.world Sample.args0 Sample.scorer0 in
  ∃ scorer adv orig,
    utils_loadtxt w (Some "adv.txt") = Ok adv
    ∧ utils_loadtxt w (Some "src.txt") = Ok orig
    ∧ Ok [Sample.q 9 10; Sample.q 1 2] = Scorer.score scorer adv orig None.
Proof.
  destruct (score_call_arguments
              (Sample.world Sample.args0 Sample.scorer0) Sample.registry0
              (Ok [Sample.q 9 10; Sample.q 1 2]))
    as (a0 & c & args & scorer & adv & orig & Hpk & _ & Hpa & _ & Ha & Ho
        & Hr).
  - occurs.
  - injection Hpa as <-. by exists scorer, adv, orig.
Defined.

Lemma rd_score_call_arguments_witness :
  let w := Sample.world Sample.args0 Sample.scorer0 in
  ∃ scorer adv orig rf,
    utils_loadtxt w (Some "advout.txt") = Ok adv
    ∧ utils_loadtxt w (Some "out.txt") = Ok orig
    ∧ utils_loadtxt w (Some "ref.txt") = Ok rf
    ∧ Ok [Sample.q 1 2; Sample.q 0 1]
      = Scorer.rd_score scorer adv orig rf None.
Proof.
  destruct (rd_score_call_arguments
              (Sample.world Sample.args0 Sample.scorer0) Sample.registry0
              (Ok [Sample.q 1 2; Sample.q 0 1]))
    as (a0 & c & args & scorer & adv & orig & rf & Hpk & _ & Hpa & _ & Ha
        & Ho & Hf & Hr).
  - occurs.
  - injection Hpa as <-. by exists scorer, adv, orig, rf.
Defined.

Lemma only_active_side_files_are_read_witness :
  let w := Sample.world Sample.args_source_and_ref Sample.scorer0 in
  ∃ a0,
    argparse_parse_known_args w base_parser = Ok a0
    ∧ target_side a0 = false
    ∧ Ok ["the cat sat"; "a dog"] = utils_loadtxt w (Some "src.txt").
Proof.
  destruct (only_active_side_files_are_read
              (Sample.world Sample.args_source_and_ref Sample.scorer0)
              Sample.registry0 (Some "src.txt")
              (Ok ["the cat sat"; "a dog"]))
    as (a0 & c & args & Hpk & _ & Hr & _).
  - occurs.
  - exists a0. injection Hpk as <-. by repeat split.
Defined.

Lemma failed_get_args_ends_main_witness :
  let w := Sample.world Sample.args_source_and_missing_ref Sample.scorer0 in
  result (main w Sample.registry0)
  = Raise (ValueError (missing_file_msg "ref" "nowhere.txt"))
  ∧ trace (main w Sample.registry0) = trace (get_args w Sample.registry0).
Proof.
  destruct (failed_get_args_ends_main
              (Sample.world Sample.args_source_and_missing_ref Sample.scorer0)
              Sample.registry0
              (ValueError (missing_file_msg "ref" "nowhere.txt")))
    as (Hres & Htr & _).
  - reflexivity.
  - by split.
Defined.

Lemma completed_run_has_matching_counts_witness :
  length [Sample.q 9 10; Sample.q 1 2] = length [Sample.q 1 2; Sample.q 0 1]
  ∧ length [Sample.q 9 10; Sample.q 1 2] ≠ 0.
Proof.
  apply (completed_run_has_matching_counts
           (Sample.world Sample.args0 Sample.scorer0) Sample.registry0).
  - reflexivity.
  - occurs.
  - occurs.
Defined.

Lemma statistics_failure_ends_run_witness :
  let w := Sample.world Sample.args0 Sample2.scorer_empty in
  result (main w Sample.registry0) = Raise (Foreign "EmptyInputError")
  ∧ (∃ before,
       trace (main w Sample.registry0)
       = before ++ [EvStats [] (Raise (Foreign "EmptyInputError"))])
  ∧ stdout (main w Sample.registry0) = [].
Proof.
  destruct (statistics_failure_ends_run
              (Sample.world Sample.args0 Sample2.scorer_empty)
              Sample.registry0 [] (Foreign "EmptyInputError"))
    as (Hres & Hlast & _ & _).
  - occurs.
  - split; [exact Hres|]. split; [exact Hlast|]. reflexivity.
Defined.

Lemma report_layout_witness :
  let w := Sample.world Sample.args_source_and_ref Sample.scorer0 in
  ∃ a0 src tgt suc,
    argparse_parse_known_args w base_parser = Ok a0
    ∧ target_side a0 = false
    ∧ stdout (main w Sample.registry0) = src ++ tgt ++ suc
    ∧ tgt = [] ∧ suc = [].
Proof.
  destruct (report_layout
              (Sample.world Sample.args_source_and_ref Sample.scorer0)
              Sample.registry0)
    as (a0 & c & args & scorer & src & tgt & suc & Hpk & _ & _ & _ & Ht
        & Hu & Hout).
  - reflexivity.
  - injection Hpk as <-.
    exists Sample.args_source_and_ref, src, tgt, suc.
    by repeat split.
Defined.

Lemma separator_needs_both_sides_witness :
  let w := Sample.world Sample.args0 Sample.scorer0 in
  ∃ a0,
    argparse_parse_known_args w base_parser = Ok a0
    ∧ source_side a0 = true ∧ target_side a0 = true.
Proof.
  destruct (separator_needs_both_sides
              (Sample.world Sample.args0 Sample.scorer0) Sample.registry0)
    as (a0 & c & args & Hpk & _ & Hs & Ht & _).
  - occurs.
  - by exists a0.
Defined.

Lemma scorer_is_built_from_loaded_registry_witness :
  let w := Sample.world Sample.args_custom Sample.scorer0 in
  registry (main w Sample.registry0)
  = register "mine" Sample.my_class Sample.registry0.
Proof.
  cbv zeta.
  destruct (scorer_is_built_from_loaded_registry
              (Sample.world Sample.args_custom Sample.scorer0)
              Sample.registry0 Sample.args_custom)
    as (a0 & c & Hpk & _ & Hload & _).
  - occurs.
  - injection Hpk as <-.
    assert (Hl : load_all (Sample.world Sample.args_custom Sample.scorer0)
                   (Args.custom_scores_source Sample.args_custom)
                   Sample.registry0
                 = Ok (register "mine" Sample.my_class Sample.registry0))
      by reflexivity.
    rewrite Hl in Hload. congruence.
Defined.

Lemma missing_custom_source_is_reported_witness :
  let w := Sample.world Sample2.args_absent_custom Sample.scorer0 in
  result (main w Sample.registry0)
  = Raise (ValueError (missing_custom_msg "/work/absent.py"))
  ∧ registry (main w Sample.registry0)
    = register "mine" Sample.my_class Sample.registry0
  ∧ loaded (trace (main w Sample.registry0)) = ["/work/my_scorer.py"].
Proof.
  destruct (missing_custom_source_is_reported
              (Sample.world Sample2.args_absent_custom Sample.scorer0)
              Sample.registry0 Sample2.args_absent_custom
              ["my_scorer.py"] "absent.py" []
              (register "mine" Sample.my_class Sample.registry0))
    as (Hres & Hreg & Hl & _).
  - reflexivity.
  - reflexivity.
  - intros name f Hin Hg.
    repeat (destruct Hin as [<-|Hin]; [by injection Hg as <-|]).
    destruct Hin.
  - reflexivity.
  - by repeat constructor.
  - reflexivity.
  - reflexivity.
  - by repeat split.
Defined.

Lemma custom_source_is_loaded_after_checks_witness :
  let w := Sample.world Sample.args_custom Sample.scorer0 in
  ∃ a0 file,
    argparse_parse_known_args w base_parser = Ok a0
    ∧ In file (Args.custom_scores_source a0)
    ∧ "/work/my_scorer.py" = os_path_abspath w file.
Proof.
  destruct (custom_source_is_loaded_after_checks
              (Sample.world Sample.args_custom Sample.scorer0)
              Sample.registry0 "/work/my_scorer.py"
              (Ok (register "mine" Sample.my_class Sample.registry0)))
    as (a0 & file & Hpk & _ & _ & Hin & Hp & _).
  - occurs.
  - by exists a0, file.
Defined.

Lemma get_args_postcondition_witness :
  let w := Sample.world Sample.args0 Sample.scorer0 in
  ∃ a0 c,
    argparse_parse_known_args w base_parser = Ok a0
    ∧ lookup_scorer_class (registry (get_args w Sample.registry0))
        (Args.score a0) = Ok c
    ∧ argparse_parse_args w (add_args c base_parser) = Ok Sample.args0.
Proof.
  destruct (get_args_postcondition
              (Sample.world Sample.args0 Sample.scorer0) Sample.registry0
              Sample.args0 true true)
    as (a0 & c & Hpk & _ & _ & _ & _ & _ & _ & Hc & Hpa).
  - reflexivity.
  - by exists a0, c.
Defined.
